(** * SmartPointers: a shallow embedding of [smart_pointers.h]

    The header implements a reference-counted strong handle ([SharedPtr]),
    a weak observer ([WeakPtr]), two control-block layouts
    ([RegularControlBlock], [MakeSharedControlBlock]), the self-observation
    mix-in ([EnableSharedFromThis]) and the factory ([allocateShared],
    [makeShared]).

    The embedding keeps the memory that the C++ code manipulates explicit:
    a store of control blocks, a store of separately allocated payload
    objects and a ghost trace of the calls to [destroy], [deallocate],
    deleters and constructors.  Every member function becomes a function in
    a small state-and-failure monad; failure stands for undefined behaviour
    (touching a block or an object that is not allocated) and for a
    statement that is ill-formed (naming a private member without
    access), which no compiled program executes. *)

From Stdlib Require Import ZArith List Lia Bool.
From stdpp Require Import base option list gmap.

Local Open Scope Z_scope.

(** ** Machine integers: [uint] is a 32-bit unsigned integer *)

Definition uint_bits : Z := 32.
Definition uint_modulus : Z := 2 ^ uint_bits.
Definition UINT_MAX : Z := uint_modulus - 1.

(** [++n] and [--n] on an [uint]: arithmetic modulo [2^32]. *)
Definition uint_incr (n : Z) : Z := (n + 1) mod uint_modulus.
Definition uint_decr (n : Z) : Z := (n - 1) mod uint_modulus.

(** ** Pointers *)

(** Control blocks and separately allocated payload objects are identified
    by their allocation.  A payload pointer [T*] is null, the address of an
    object that the caller allocated on its own, or the address of the
    [object] array inside a [MakeSharedControlBlock]. *)
Definition block_id := positive.
Definition object_id := positive.

Inductive pointer : Type :=
  | nullptr
  | object_at (a : object_id)
  | storage_of (b : block_id).

#[global] Instance pointer_eq_dec : EqDecision pointer.
Proof. solve_decision. Defined.

(** ** Handles: the pair (payload pointer, control block pointer) *)

Record SharedPtr : Type := mkSharedPtr {
  sp_ptr : pointer;            (* T* ptr = nullptr *)
  sp_cb : option block_id      (* BaseControlBlock* cb = nullptr *)
}.

Record WeakPtr : Type := mkWeakPtr {
  wp_ptr : pointer;
  wp_cb : option block_id
}.

#[global] Instance SharedPtr_eq_dec : EqDecision SharedPtr.
Proof. solve_decision. Defined.
#[global] Instance WeakPtr_eq_dec : EqDecision WeakPtr.
Proof. solve_decision. Defined.

(** ** Deleters and allocators travel with the block as values *)

Inductive Delete : Type :=
  | default_delete
  | custom_delete (d : nat).

Inductive Alloc : Type :=
  | std_allocator
  | custom_allocator (a : nat).

#[global] Instance Delete_eq_dec : EqDecision Delete.
Proof. solve_decision. Defined.
#[global] Instance Alloc_eq_dec : EqDecision Alloc.
Proof. solve_decision. Defined.

(** ** Payload objects *)

(** A payload records the constructor arguments it was built from and,
    when its type derives from [EnableSharedFromThis], the embedded
    [enable_wp]. *)
Record Object : Type := mkObject {
  fields : list Z;
  enable_wp : option WeakPtr
}.

(** What the library needs to know about the payload type: whether
    [std::is_base_of_v<EnableSharedFromThis<U>, U>] holds and whether the
    constructor returns or throws on given arguments. *)
Record Class : Type := mkClass {
  derives_esft : bool;
  ctor_succeeds : list Z -> bool
}.

Definition construct_object (C : Class) (args : list Z) : Object :=
  {| fields := args;
     enable_wp := if derives_esft C then Some (mkWeakPtr nullptr None) else None |}.

(** ** Control blocks *)

Inductive Layout : Type :=
  | RegularControlBlock (ptr : pointer) (deleter : Delete) (allocator : Alloc)
  | MakeSharedControlBlock (object : option Object) (allocator : Alloc).

Record BaseControlBlock : Type := mkBlock {
  shared_count : Z;
  weak_count : Z;
  layout : Layout
}.

(** ** Ghost trace of the observable calls *)

Inductive Event : Type :=
  | EvAllocate (b : block_id)
  | EvConstruct (b : block_id) (args : list Z)
  | EvDestroy (b : block_id)
  | EvDeleter (d : Delete) (p : pointer)
  | EvDestructor (p : pointer)
  | EvDeallocate (b : block_id) (a : Alloc).

#[global] Instance Event_eq_dec : EqDecision Event.
Proof. solve_decision. Defined.

(** ** Program memory *)

(** [allocated] is the storage obtained from [allocate] / [new] and not yet
    given back; [blocks] holds the control blocks constructed in it.  Block
    identifiers are never reused, so the trace names each block for good. *)
Record Heap : Type := mkHeap {
  blocks : gmap block_id BaseControlBlock;
  objects : gmap object_id Object;
  allocated : gset block_id;
  next_block : block_id;
  trace : list Event
}.

Definition empty_heap : Heap :=
  {| blocks := ∅; objects := ∅; allocated := ∅;
     next_block := 1%positive; trace := [] |}.

(** ** The monad: state passing with failure for undefined behaviour *)

Definition M (A : Type) : Type := Heap -> option (A * Heap).

Definition ret {A} (a : A) : M A := fun h => Some (a, h).
Definition bind {A B} (m : M A) (k : A -> M B) : M B :=
  fun h => match m h with
           | Some (a, h') => k a h'
           | None => None
           end.
Definition undefined {A} : M A := fun _ => None.

Notation "x <~ m ;; k" := (bind m (fun x => k))
  (at level 100, m at next level, right associativity).
Notation "m ;;; k" := (bind m (fun _ => k))
  (at level 100, right associativity).

Definition log (e : Event) : M unit :=
  fun h => Some (tt, mkHeap (blocks h) (objects h) (allocated h)
                            (next_block h) (trace h ++ [e])).

(** Reading or writing through a [BaseControlBlock*] needs a live block. *)
Definition get_block (b : block_id) : M BaseControlBlock :=
  fun h => match blocks h !! b with
           | Some blk => Some (blk, h)
           | None => None
           end.

Definition put_block (b : block_id) (blk : BaseControlBlock) : M unit :=
  fun h => match blocks h !! b with
           | Some _ => Some (tt, mkHeap (<[b := blk]> (blocks h)) (objects h)
                                        (allocated h) (next_block h) (trace h))
           | None => None
           end.

Definition set_shared_count (n : Z) (blk : BaseControlBlock) : BaseControlBlock :=
  mkBlock n (weak_count blk) (layout blk).
Definition set_weak_count (n : Z) (blk : BaseControlBlock) : BaseControlBlock :=
  mkBlock (shared_count blk) n (layout blk).
Definition set_layout (l : Layout) (blk : BaseControlBlock) : BaseControlBlock :=
  mkBlock (shared_count blk) (weak_count blk) l.

(** [allocate(alloc, 1)] and the allocating half of [new]: fresh storage. *)
Definition allocate : M block_id :=
  fun h => let b := next_block h in
           Some (b, mkHeap (blocks h) (objects h) ({[ b ]} ∪ allocated h)
                           (Pos.succ b) (trace h ++ [EvAllocate b])).

(** Placement construction of a control block in storage just allocated. *)
Definition construct_block (b : block_id) (blk : BaseControlBlock) : M unit :=
  fun h => Some (tt, mkHeap (<[b := blk]> (blocks h)) (objects h)
                            (allocated h) (next_block h) (trace h)).

(** Dereferencing a payload pointer. *)
Definition get_object (p : pointer) : M Object :=
  fun h => match p with
           | nullptr => None
           | object_at a => match objects h !! a with
                            | Some o => Some (o, h)
                            | None => None
                            end
           | storage_of b =>
               match blocks h !! b with
               | Some (mkBlock _ _ (MakeSharedControlBlock (Some o) _)) => Some (o, h)
               | _ => None
               end
           end.

Definition put_object (p : pointer) (o : Object) : M unit :=
  fun h => match p with
           | nullptr => None
           | object_at a =>
               match objects h !! a with
               | Some _ => Some (tt, mkHeap (blocks h) (<[a := o]> (objects h))
                                            (allocated h) (next_block h) (trace h))
               | None => None
               end
           | storage_of b =>
               match blocks h !! b with
               | Some (mkBlock s w (MakeSharedControlBlock (Some _) al)) =>
                   Some (tt, mkHeap (<[b := mkBlock s w (MakeSharedControlBlock (Some o) al)]>
                                       (blocks h))
                                    (objects h) (allocated h) (next_block h) (trace h))
               | _ => None
               end
           end.

(** The freeing half of [delete p] on a separately allocated object. *)
Definition free_object (a : object_id) : M unit :=
  fun h => match objects h !! a with
           | Some _ => Some (tt, mkHeap (blocks h) (delete a (objects h))
                                        (allocated h) (next_block h) (trace h))
           | None => None
           end.

(** ** Control-block capabilities *)

Definition allocator_of (l : Layout) : Alloc :=
  match l with
  | RegularControlBlock _ _ a => a
  | MakeSharedControlBlock _ a => a
  end.

(** [deallocate()]: the stored allocator is moved out, rebound and used to
    give back one block-sized unit (lines 31-34 and 68-71). *)
Definition deallocate (b : block_id) : M unit :=
  fun h => match blocks h !! b with
           | Some blk =>
               Some (tt, mkHeap (delete b (blocks h)) (objects h)
                                (allocated h ∖ {[ b ]}) (next_block h)
                                (trace h ++ [EvDeallocate b (allocator_of (layout blk))]))
           | None => None
           end.

(** ** WeakPtr *)

Definition WeakPtr_default : WeakPtr := mkWeakPtr nullptr None.

(** [~WeakPtr()] (lines 267-275). *)
Definition WeakPtr_dtor (this : WeakPtr) : M unit :=
  match wp_cb this with
  | None => ret tt
  | Some b =>
      blk <~ get_block b ;;
      let blk' := set_weak_count (uint_decr (weak_count blk)) blk in
      put_block b blk' ;;;
      if (weak_count blk' =? 0) && (shared_count blk' =? 0)
      then deallocate b
      else ret tt
  end.

(** [WeakPtr(const WeakPtr&)] (lines 244-248). *)
Definition WeakPtr_copy (wp : WeakPtr) : M WeakPtr :=
  match wp_cb wp with
  | None => ret (mkWeakPtr (wp_ptr wp) None)
  | Some b =>
      blk <~ get_block b ;;
      put_block b (set_weak_count (uint_incr (weak_count blk)) blk) ;;;
      ret (mkWeakPtr (wp_ptr wp) (Some b))
  end.

(** [WeakPtr(WeakPtr&&)] (lines 250-253): the new handle and what is left
    of the source. *)
Definition WeakPtr_move (wp : WeakPtr) : WeakPtr * WeakPtr :=
  (mkWeakPtr (wp_ptr wp) (wp_cb wp), mkWeakPtr nullptr None).

(** [swap] (lines 277-280). *)
Definition WeakPtr_swap (this wp : WeakPtr) : WeakPtr * WeakPtr := (wp, this).

(** [operator=(const WeakPtr&)] (lines 255-259): the new value of [*this]. *)
Definition WeakPtr_assign (this wp : WeakPtr) : M WeakPtr :=
  copy <~ WeakPtr_copy wp ;;
  let '(this', copy') := WeakPtr_swap this copy in
  WeakPtr_dtor copy' ;;;
  ret this'.

(** [operator=(WeakPtr&&)] (lines 261-265): the new values of [*this] and
    of the source; [same] tells whether the source is [*this]. *)
Definition WeakPtr_move_assign (same : bool) (this wp : WeakPtr)
    : M (WeakPtr * WeakPtr) :=
  let '(copy, wp') := WeakPtr_move wp in
  let this1 := if same then wp' else this in
  let '(this2, copy') := WeakPtr_swap this1 copy in
  WeakPtr_dtor copy' ;;;
  ret (this2, if same then this2 else wp').

(** [expired()] (lines 289-291). *)
Definition WeakPtr_expired (this : WeakPtr) : M bool :=
  match wp_cb this with
  | None => ret true
  | Some b => blk <~ get_block b ;; ret (shared_count blk =? 0)
  end.

(** [use_count()] (lines 297-299). *)
Definition WeakPtr_use_count (this : WeakPtr) : M Z :=
  match wp_cb this with
  | None => ret 0
  | Some b => blk <~ get_block b ;; ret (shared_count blk)
  end.

(** ** Payload destruction *)

(** The destructor of a payload runs the destructor of its embedded
    [enable_wp] when the type has one. *)
Definition Object_dtor (o : Object) : M unit :=
  match enable_wp o with
  | Some w => WeakPtr_dtor w
  | None => ret tt
  end.

(** [deleter(ptr)]: [std::default_delete] is [delete ptr] (a no-op on null,
    otherwise destructor then release of the object's memory); a custom
    deleter is a black box that is only recorded. *)
Definition call_deleter (d : Delete) (p : pointer) : M unit :=
  log (EvDeleter d p) ;;;
  match d with
  | custom_delete _ => ret tt
  | default_delete =>
      match p with
      | nullptr => ret tt
      | object_at a =>
          o <~ get_object p ;;
          log (EvDestructor p) ;;;
          Object_dtor o ;;;
          free_object a
      | storage_of _ => undefined
      end
  end.

(** [destroy()] of both layouts (lines 27-30 and 63-66).  After the
    deleter has run, line 29 writes to the block, which must still be
    allocated.  The in-place destructor leaves the bytes of [object] where
    they are; the embedding records that they hold no object any more. *)
Definition destroy (b : block_id) : M unit :=
  blk <~ get_block b ;;
  log (EvDestroy b) ;;;
  match layout blk with
  | RegularControlBlock ptr deleter allocator =>
      call_deleter deleter ptr ;;;
      blk' <~ get_block b ;;
      put_block b (set_layout (RegularControlBlock nullptr deleter allocator) blk')
  | MakeSharedControlBlock (Some o) allocator =>
      log (EvDestructor (storage_of b)) ;;;
      Object_dtor o ;;;
      fun h => match blocks h !! b with
               | Some blk' =>
                   put_block b (set_layout (MakeSharedControlBlock None allocator) blk') h
               | None => Some (tt, h)
               end
  | MakeSharedControlBlock None _ => undefined
  end.

(** ** SharedPtr *)

(** [SharedPtr()] (line 95). *)
Definition SharedPtr_default : SharedPtr := mkSharedPtr nullptr None.

(** The private promotion constructor [SharedPtr(const WeakPtr<T>&)]
    (lines 88-92). *)
Definition SharedPtr_from_weak (wp : WeakPtr) : M SharedPtr :=
  match wp_cb wp with
  | None => ret (mkSharedPtr (wp_ptr wp) None)
  | Some b =>
      blk <~ get_block b ;;
      put_block b (set_shared_count (uint_incr (shared_count blk)) blk) ;;;
      ret (mkSharedPtr (wp_ptr wp) (Some b))
  end.

(** [SharedPtr(const SharedPtr&)] (lines 97-101). *)
Definition SharedPtr_copy (shp : SharedPtr) : M SharedPtr :=
  match sp_cb shp with
  | None => ret (mkSharedPtr (sp_ptr shp) None)
  | Some b =>
      blk <~ get_block b ;;
      put_block b (set_shared_count (uint_incr (shared_count blk)) blk) ;;;
      ret (mkSharedPtr (sp_ptr shp) (Some b))
  end.

(** [SharedPtr(SharedPtr&&)] (lines 103-106): the new handle and what is
    left of the source. *)
Definition SharedPtr_move (shp : SharedPtr) : SharedPtr * SharedPtr :=
  (mkSharedPtr (sp_ptr shp) (sp_cb shp), mkSharedPtr nullptr None).

(** [~SharedPtr()] (lines 123-136). *)
Definition SharedPtr_dtor (this : SharedPtr) : M unit :=
  match sp_cb this with
  | None => ret tt
  | Some b =>
      blk <~ get_block b ;;
      let blk' := set_shared_count (uint_decr (shared_count blk)) blk in
      put_block b blk' ;;;
      if shared_count blk' =? 0 then
        if weak_count blk' =? 0 then
          destroy b ;;; deallocate b
        else
          destroy b
      else ret tt
  end.

(** [swap] (lines 201-204). *)
Definition SharedPtr_swap (this shp : SharedPtr) : SharedPtr * SharedPtr :=
  (shp, this).

(** [operator=(const SharedPtr&)] (lines 108-115); [same] tells whether the
    argument is [*this] itself. *)
Definition SharedPtr_assign (same : bool) (this shp : SharedPtr) : M SharedPtr :=
  if same then ret this
  else
    copy <~ SharedPtr_copy shp ;;
    let '(this', copy') := SharedPtr_swap this copy in
    SharedPtr_dtor copy' ;;;
    ret this'.

(** [operator=(SharedPtr&&)] (lines 117-121): the new values of [*this]
    and of the source.  The source has no self-assignment test; [same]
    tells whether [shp] is [*this], in which case emptying the source
    empties [*this] before the swap. *)
Definition SharedPtr_move_assign (same : bool) (this shp : SharedPtr)
    : M (SharedPtr * SharedPtr) :=
  let '(copy, shp') := SharedPtr_move shp in
  let this1 := if same then shp' else this in
  let '(this2, copy') := SharedPtr_swap this1 copy in
  SharedPtr_dtor copy' ;;;
  ret (this2, if same then this2 else shp').

(** The converting constructor [SharedPtr(SharedPtr<U> shp)]
    (lines 138-143) called on an lvalue: the by-value parameter is a copy
    of the argument and dies when the call is over. *)
Definition SharedPtr_convert (arg : SharedPtr) : M SharedPtr :=
  shp <~ SharedPtr_copy arg ;;
  this <~ SharedPtr_copy shp ;;
  SharedPtr_dtor shp ;;;
  ret this.

(** [use_count()] (lines 189-191). *)
Definition SharedPtr_use_count (this : SharedPtr) : M Z :=
  match sp_cb this with
  | None => ret 0
  | Some b => blk <~ get_block b ;; ret (shared_count blk)
  end.

(** [get()] (lines 214-216). *)
Definition SharedPtr_get (this : SharedPtr) : pointer := sp_ptr this.

(** [reset()] (lines 193-195): the temporary [SharedPtr()] takes the old
    value in the swap and is destroyed. *)
Definition SharedPtr_reset (this : SharedPtr) : M SharedPtr :=
  let '(tmp', this') := SharedPtr_swap SharedPtr_default this in
  SharedPtr_dtor tmp' ;;;
  ret this'.

(** ** WeakPtr, continued: construction from and promotion to SharedPtr *)

(** [WeakPtr(SharedPtr<U> shp)] (lines 237-242) called on an lvalue. *)
Definition WeakPtr_from_shared (arg : SharedPtr) : M WeakPtr :=
  shp <~ SharedPtr_copy arg ;;
  this <~ match sp_cb shp with
          | None => ret (mkWeakPtr (sp_ptr shp) None)
          | Some b =>
              blk <~ get_block b ;;
              put_block b (set_weak_count (uint_incr (weak_count blk)) blk) ;;;
              ret (mkWeakPtr (sp_ptr shp) (Some b))
          end ;;
  SharedPtr_dtor shp ;;;
  ret this.

(** [WeakPtr(WeakPtr<U> wp)] (lines 282-287) called on an lvalue. *)
Definition WeakPtr_convert (arg : WeakPtr) : M WeakPtr :=
  wp <~ WeakPtr_copy arg ;;
  this <~ WeakPtr_copy wp ;;
  WeakPtr_dtor wp ;;;
  ret this.

(** [lock()] (lines 293-295). *)
Definition WeakPtr_lock (this : WeakPtr) : M SharedPtr :=
  e <~ WeakPtr_expired this ;;
  if e then ret SharedPtr_default else SharedPtr_from_weak this.

(** ** Access control *)

(** The class templates and the function template of the header that use
    each other's private members, and [SharePtr], the name that line 318
    befriends; no class of that name is declared. *)
Inductive Entity : Type :=
  | class_SharedPtr
  | class_WeakPtr
  | class_EnableSharedFromThis
  | class_SharePtr
  | function_allocateShared.

#[global] Instance Entity_eq_dec : EqDecision Entity.
Proof. solve_decision. Defined.

(** The friend declarations: of [SharedPtr] (lines 218-225), of [WeakPtr]
    (lines 300-304) and of [EnableSharedFromThis] (lines 317-318). *)
Definition friends (owner : Entity) : list Entity :=
  match owner with
  | class_SharedPtr => [function_allocateShared; class_WeakPtr; class_SharedPtr]
  | class_WeakPtr => [class_SharedPtr; class_WeakPtr]
  | class_EnableSharedFromThis => [class_SharePtr]
  | class_SharePtr => []
  | function_allocateShared => []
  end.

(** [accessor] may name a private member of [owner]: it is [owner] itself
    or one of its friends. *)
Definition may_access (accessor owner : Entity) : bool :=
  bool_decide (accessor = owner) ||
  existsb (fun f => bool_decide (f = accessor)) (friends owner).

(** A statement that names a private member it may not access is
    ill-formed: the program that contains it does not compile, and the
    embedding gives it no behaviour. *)
Definition ill_formed {A} : M A := fun _ => None.

Definition private_access {A} (accessor owner : Entity) (m : M A) : M A :=
  if may_access accessor owner then m else ill_formed.

(** ** Self-observation *)

(** [other_ptr->enable_wp = *this;] (lines 153, 164, 185), a statement
    of [SharedPtr] that names [enable_wp], a private member of
    [EnableSharedFromThis] (line 310): [*this] is converted to a temporary
    [WeakPtr], which is move-assigned to the member; the temporary,
    emptied by the move, is destroyed at the end. *)
Definition populate_enable_wp (other_ptr : pointer) (this : SharedPtr) : M unit :=
  private_access class_SharedPtr class_EnableSharedFromThis (
    tmp <~ WeakPtr_from_shared this ;;
    o <~ get_object other_ptr ;;
    match enable_wp o with
    | None => undefined
    | Some member =>
        let '(copy, tmp') := WeakPtr_move tmp in
        let '(member', copy') := WeakPtr_swap member copy in
        put_object other_ptr (mkObject (fields o) (Some member')) ;;;
        WeakPtr_dtor copy' ;;;
        WeakPtr_dtor tmp'
    end).

(** [EnableSharedFromThis::shared_from_this()] (lines 313-315) on the
    object that [this_ptr] points to: a member of [EnableSharedFromThis]
    that calls the private constructor of [SharedPtr] (line 88). *)
Definition shared_from_this (this_ptr : pointer) : M SharedPtr :=
  private_access class_EnableSharedFromThis class_SharedPtr (
    o <~ get_object this_ptr ;;
    match enable_wp o with
    | Some w => SharedPtr_from_weak w
    | None => undefined
    end).

(** ** Adoption of raw pointers *)

(** [SharedPtr(U* other_ptr)] (lines 145-155); [U] is the static type of
    the pointer. *)
Definition SharedPtr_adopt (U : Class) (other_ptr : pointer) : M SharedPtr :=
  b <~ allocate ;;
  construct_block b
    (mkBlock 1 0 (RegularControlBlock other_ptr default_delete std_allocator)) ;;;
  let this := mkSharedPtr other_ptr (Some b) in
  if derives_esft U
  then populate_enable_wp other_ptr this ;;; ret this
  else ret this.

(** [SharedPtr(U* other_ptr, Delete deleter)] (lines 157-166). *)
Definition SharedPtr_adopt_deleter (U : Class) (other_ptr : pointer)
    (deleter : Delete) : M SharedPtr :=
  b <~ allocate ;;
  construct_block b
    (mkBlock 1 0 (RegularControlBlock other_ptr deleter std_allocator)) ;;;
  let this := mkSharedPtr other_ptr (Some b) in
  if derives_esft U
  then populate_enable_wp other_ptr this ;;; ret this
  else ret this.

(** [SharedPtr(U* other_ptr, Delete deleter, Alloc allocator)]
    (lines 168-187).  The block is default-constructed in place (counts
    zero, [ptr] null), then [shared_count], [deleter] and [allocator] are
    assigned; the block's [ptr] is not. *)
Definition SharedPtr_adopt_deleter_alloc (U : Class) (other_ptr : pointer)
    (deleter : Delete) (allocator : Alloc) : M SharedPtr :=
  b <~ allocate ;;
  construct_block b (mkBlock 0 0 (RegularControlBlock nullptr deleter allocator)) ;;;
  blk <~ get_block b ;;
  put_block b (set_shared_count 1 blk) ;;;
  let this := mkSharedPtr other_ptr (Some b) in
  if derives_esft U
  then populate_enable_wp other_ptr this ;;; ret this
  else ret this.

(** [reset(U* other_ptr)] (lines 196-199). *)
Definition SharedPtr_reset_ptr (U : Class) (this : SharedPtr)
    (other_ptr : pointer) : M SharedPtr :=
  tmp <~ SharedPtr_adopt U other_ptr ;;
  let '(tmp', this') := SharedPtr_swap tmp this in
  SharedPtr_dtor tmp' ;;;
  ret this'.

(** ** The factory *)

(** A call either returns a value or leaves by an exception. *)
Inductive outcome (A : Type) : Type :=
  | Returned (a : A)
  | Thrown.
Arguments Returned {A} a.
Arguments Thrown {A}.

(** [allocateShared] (lines 321-340).  Construction of the block runs the
    payload's constructor on the forwarded arguments; when that throws,
    control leaves the function at line 333.  The block's [allocator]
    member is default-constructed at line 333 and assigned at line 338,
    before anything reads it; the embedding writes it once. *)
Definition allocateShared (T : Class) (alloc : Alloc) (args : list Z)
    : M (outcome SharedPtr) :=
  let shp := SharedPtr_default in
  MSCB_ptr <~ allocate ;;
  if ctor_succeeds T args then
    log (EvConstruct MSCB_ptr args) ;;;
    construct_block MSCB_ptr
      (mkBlock 0 0 (MakeSharedControlBlock (Some (construct_object T args)) alloc)) ;;;
    let shp := mkSharedPtr (sp_ptr shp) (Some MSCB_ptr) in
    blk <~ get_block MSCB_ptr ;;
    put_block MSCB_ptr (set_shared_count 1 blk) ;;;
    let shp := mkSharedPtr (storage_of MSCB_ptr) (sp_cb shp) in
    ret (Returned shp)
  else
    ret Thrown.

(** [makeShared] (lines 342-345). *)
Definition makeShared (T : Class) (args : list Z) : M (outcome SharedPtr) :=
  allocateShared T std_allocator args.

(** ** Programs: sequences of handle operations *)

(** A program state is the memory together with the strong and weak
    handles that are alive, named by their position. *)
Record Sys : Type := mkSys {
  heap : Heap;
  strongs : list SharedPtr;
  weaks : list WeakPtr
}.

Definition init_sys : Sys := mkSys empty_heap [] [].

(** The payload type of the programs: it does not opt into
    self-observation, its constructor returns on every argument list, and
    its objects hold data only; no member is a handle of this library, so
    destroying a payload releases no handle. *)
Definition plain_class : Class := mkClass false (fun _ => true).

(** [new T(args)]: a payload object in storage of its own. *)
Definition new_object (o : Object) : M pointer :=
  fun h => let a := fresh (dom (objects h)) in
           Some (object_at a, mkHeap (blocks h) (<[a := o]> (objects h))
                                     (allocated h) (next_block h) (trace h)).

(** The statements of a program; every payload is of [plain_class]. *)
Inductive Op : Type :=
  | OpAdopt (args : list Z)              (* SharedPtr<T> s(new T(args)); *)
  | OpAdoptDeleter (args : list Z) (d : Delete)
  | OpAdoptDeleterAlloc (args : list Z) (d : Delete) (a : Alloc)
  | OpMake (a : Alloc) (args : list Z)   (* auto s = allocateShared<T>(a, args); *)
  | OpCopy (i : nat)                     (* SharedPtr<T> s(s_i); *)
  | OpMove (i : nat)                     (* SharedPtr<T> s(std::move(s_i)); *)
  | OpAssign (i j : nat)                 (* s_i = s_j; *)
  | OpMoveAssign (i j : nat)             (* s_i = std::move(s_j); *)
  | OpReset (i : nat)                    (* s_i.reset(); *)
  | OpResetPtr (i : nat) (args : list Z) (* s_i.reset(new T(args)); *)
  | OpSwap (i j : nat)                   (* s_i.swap(s_j); *)
  | OpRelease (i : nat)                  (* s_i goes out of scope *)
  | OpWeak (i : nat)                     (* WeakPtr<T> w(s_i); *)
  | OpWeakCopy (j : nat)                 (* WeakPtr<T> w(w_j); *)
  | OpWeakMove (j : nat)                 (* WeakPtr<T> w(std::move(w_j)); *)
  | OpWeakAssign (i j : nat)             (* w_i = w_j; *)
  | OpWeakMoveAssign (i j : nat)         (* w_i = std::move(w_j); *)
  | OpWeakSwap (i j : nat)               (* w_i.swap(w_j); *)
  | OpWeakRelease (j : nat)              (* w_j goes out of scope *)
  | OpLock (j : nat).                    (* SharedPtr<T> s = w_j.lock(); *)

(** Running a computation on the memory of a state. *)
Definition on_heap {A} (m : M A) (s : Sys) (k : A -> Heap -> Sys) : option Sys :=
  match m (heap s) with
  | Some (a, h') => Some (k a h')
  | None => None
  end.

(** One statement.  A statement that names a handle that does not exist
    is no statement of the program and leaves the state alone. *)
Definition step (op : Op) (s : Sys) : option Sys :=
  match op with
  | OpAdopt args =>
      on_heap (p <~ new_object (construct_object plain_class args) ;;
               SharedPtr_adopt plain_class p) s
        (fun x h => mkSys h (strongs s ++ [x]) (weaks s))
  | OpAdoptDeleter args d =>
      on_heap (p <~ new_object (construct_object plain_class args) ;;
               SharedPtr_adopt_deleter plain_class p d) s
        (fun x h => mkSys h (strongs s ++ [x]) (weaks s))
  | OpAdoptDeleterAlloc args d a =>
      on_heap (p <~ new_object (construct_object plain_class args) ;;
               SharedPtr_adopt_deleter_alloc plain_class p d a) s
        (fun x h => mkSys h (strongs s ++ [x]) (weaks s))
  | OpMake a args =>
      on_heap (allocateShared plain_class a args) s
        (fun r h => match r with
                    | Returned x => mkSys h (strongs s ++ [x]) (weaks s)
                    | Thrown => mkSys h (strongs s) (weaks s)
                    end)
  | OpCopy i =>
      match strongs s !! i with
      | Some x => on_heap (SharedPtr_copy x) s
                    (fun y h => mkSys h (strongs s ++ [y]) (weaks s))
      | None => Some s
      end
  | OpMove i =>
      match strongs s !! i with
      | Some x => let '(y, x') := SharedPtr_move x in
                  Some (mkSys (heap s) (<[i := x']> (strongs s) ++ [y]) (weaks s))
      | None => Some s
      end
  | OpAssign i j =>
      match strongs s !! i, strongs s !! j with
      | Some x, Some y =>
          on_heap (SharedPtr_assign (bool_decide (i = j)) x y) s
            (fun x' h => mkSys h (<[i := x']> (strongs s)) (weaks s))
      | _, _ => Some s
      end
  | OpMoveAssign i j =>
      match strongs s !! i, strongs s !! j with
      | Some x, Some y =>
          on_heap (SharedPtr_move_assign (bool_decide (i = j)) x y) s
            (fun '(x', y') h =>
               mkSys h (<[i := x']> (<[j := y']> (strongs s))) (weaks s))
      | _, _ => Some s
      end
  | OpReset i =>
      match strongs s !! i with
      | Some x => on_heap (SharedPtr_reset x) s
                    (fun x' h => mkSys h (<[i := x']> (strongs s)) (weaks s))
      | None => Some s
      end
  | OpResetPtr i args =>
      match strongs s !! i with
      | Some x =>
          on_heap (p <~ new_object (construct_object plain_class args) ;;
                   SharedPtr_reset_ptr plain_class x p) s
            (fun x' h => mkSys h (<[i := x']> (strongs s)) (weaks s))
      | None => Some s
      end
  | OpSwap i j =>
      match strongs s !! i, strongs s !! j with
      | Some x, Some y =>
          let '(x', y') := SharedPtr_swap x y in
          Some (mkSys (heap s) (<[i := x']> (<[j := y']> (strongs s))) (weaks s))
      | _, _ => Some s
      end
  | OpRelease i =>
      match strongs s !! i with
      | Some x => on_heap (SharedPtr_dtor x) s
                    (fun _ h => mkSys h (delete i (strongs s)) (weaks s))
      | None => Some s
      end
  | OpWeak i =>
      match strongs s !! i with
      | Some x => on_heap (WeakPtr_from_shared x) s
                    (fun w h => mkSys h (strongs s) (weaks s ++ [w]))
      | None => Some s
      end
  | OpWeakCopy j =>
      match weaks s !! j with
      | Some w => on_heap (WeakPtr_copy w) s
                    (fun w' h => mkSys h (strongs s) (weaks s ++ [w']))
      | None => Some s
      end
  | OpWeakMove j =>
      match weaks s !! j with
      | Some w => let '(v, w') := WeakPtr_move w in
                  Some (mkSys (heap s) (strongs s) (<[j := w']> (weaks s) ++ [v]))
      | None => Some s
      end
  | OpWeakAssign i j =>
      match weaks s !! i, weaks s !! j with
      | Some x, Some y =>
          on_heap (WeakPtr_assign x y) s
            (fun x' h => mkSys h (strongs s) (<[i := x']> (weaks s)))
      | _, _ => Some s
      end
  | OpWeakMoveAssign i j =>
      match weaks s !! i, weaks s !! j with
      | Some x, Some y =>
          on_heap (WeakPtr_move_assign (bool_decide (i = j)) x y) s
            (fun '(x', y') h =>
               mkSys h (strongs s) (<[i := x']> (<[j := y']> (weaks s))))
      | _, _ => Some s
      end
  | OpWeakSwap i j =>
      match weaks s !! i, weaks s !! j with
      | Some x, Some y =>
          let '(x', y') := WeakPtr_swap x y in
          Some (mkSys (heap s) (strongs s) (<[i := x']> (<[j := y']> (weaks s))))
      | _, _ => Some s
      end
  | OpWeakRelease j =>
      match weaks s !! j with
      | Some w => on_heap (WeakPtr_dtor w) s
                    (fun _ h => mkSys h (strongs s) (delete j (weaks s)))
      | None => Some s
      end
  | OpLock j =>
      match weaks s !! j with
      | Some w => on_heap (WeakPtr_lock w) s
                    (fun x h => mkSys h (strongs s ++ [x]) (weaks s))
      | None => Some s
      end
  end.

Fixpoint run (ops : list Op) (s : Sys) : option Sys :=
  match ops with
  | [] => Some s
  | op :: ops' =>
      match step op s with
      | Some s' => run ops' s'
      | None => None
      end
  end.

(** ** What a program can observe *)

(** The number of live strong (weak) handles that reference block [b]. *)
Definition refs {A} (cb : A -> option block_id) (b : block_id) (l : list A) : nat :=
  length (filter (fun x => cb x = Some b) l).
Definition strong_refs (b : block_id) (l : list SharedPtr) : nat := refs sp_cb b l.
Definition weak_refs (b : block_id) (l : list WeakPtr) : nat := refs wp_cb b l.

(** One unit for a handle that references [b], none otherwise. *)
Definition unit_of (c : option block_id) (b : block_id) : nat :=
  if decide (c = Some b) then 1%nat else 0%nat.

(** The life of a block as its events tell it. *)
Inductive Life : Type := Unborn | Alive | Destroyed | Freed | Broken.

#[global] Instance Life_eq_dec : EqDecision Life.
Proof. solve_decision. Defined.

Definition life_step (b : block_id) (l : Life) (e : Event) : Life :=
  match e with
  | EvAllocate b' =>
      if decide (b' = b) then
        match l with Unborn => Alive | _ => Broken end
      else l
  | EvDestroy b' =>
      if decide (b' = b) then
        match l with Alive => Destroyed | _ => Broken end
      else l
  | EvDeallocate b' _ =>
      if decide (b' = b) then
        match l with Destroyed => Freed | _ => Broken end
      else l
  | _ => l
  end.

Definition life (b : block_id) (tr : list Event) : Life :=
  fold_left (life_step b) tr Unborn.

Definition is_destroy (b : block_id) (e : Event) : bool :=
  match e with EvDestroy b' => bool_decide (b' = b) | _ => false end.
Definition is_deallocate (b : block_id) (e : Event) : bool :=
  match e with EvDeallocate b' _ => bool_decide (b' = b) | _ => false end.

Definition count_events (p : Event -> bool) (tr : list Event) : nat :=
  length (List.filter p tr).

(** ** The invariant of programs *)

(** The payload of a block that strong handles still reference is there:
    the object a default deleter will delete is allocated, the object in
    inline storage is constructed. *)
Definition payload_ok (h : Heap) (blk : BaseControlBlock) : Prop :=
  match layout blk with
  | RegularControlBlock (object_at a) default_delete _ => is_Some (objects h !! a)
  | RegularControlBlock (storage_of _) default_delete _ => False
  | RegularControlBlock _ _ _ => True
  | MakeSharedControlBlock (Some o) _ => enable_wp o = None
  | MakeSharedControlBlock None _ => False
  end.

(** Block [blk] will delete the object at [a]. *)
Definition owns (blk : BaseControlBlock) (a : object_id) : Prop :=
  shared_count blk <> 0 /\
  exists al, layout blk = RegularControlBlock (object_at a) default_delete al.

(** The payloads of programs are of types that do not derive from
    [EnableSharedFromThis]: no object embeds a weak handle. *)
Definition plain_objects (h : Heap) : Prop :=
  forall a o, objects h !! a = Some o -> enable_wp o = None.

(** No object is adopted by two blocks. *)
Definition unique_owner (h : Heap) : Prop :=
  forall b b' blk blk' a,
    blocks h !! b = Some blk -> blocks h !! b' = Some blk' ->
    owns blk a -> owns blk' a -> b = b'.

(** What holds of block [b] when [ns b] strong and [nw b] weak handles
    reference it. *)
Definition block_inv (h : Heap) (ns nw : block_id -> nat) (b : block_id) : Prop :=
  match blocks h !! b with
  | Some blk =>
      shared_count blk = Z.of_nat (ns b) /\
      weak_count blk = Z.of_nat (nw b) /\
      (ns b + nw b <> 0)%nat /\
      (Z.of_nat (ns b) <= UINT_MAX /\ Z.of_nat (nw b) <= UINT_MAX) /\
      (b < next_block h)%positive /\
      (ns b <> 0%nat -> payload_ok h blk) /\
      life b (trace h) = (if decide (ns b = 0%nat) then Destroyed else Alive)
  | None =>
      ns b = 0%nat /\ nw b = 0%nat /\
      life b (trace h) = (if decide (b < next_block h)%positive then Freed else Unborn)
  end.

Definition HInv (h : Heap) (ns nw : block_id -> nat) : Prop :=
  (forall b, block_inv h ns nw b) /\ plain_objects h /\ unique_owner h.

Definition Inv (s : Sys) : Prop :=
  HInv (heap s) (fun b => strong_refs b (strongs s)) (fun b => weak_refs b (weaks s)).

(** Adding and removing one reference to [b]. *)
Definition incr (b : block_id) (n : block_id -> nat) : block_id -> nat :=
  fun b' => if decide (b' = b) then S (n b') else n b'.
Definition decr (b : block_id) (n : block_id -> nat) : block_id -> nat :=
  fun b' => if decide (b' = b) then pred (n b') else n b'.

(** Memory only moves forward: events are appended, identifiers grow. *)
Definition extends (h h' : Heap) : Prop :=
  (exists evs, trace h' = trace h ++ evs) /\
  (next_block h <= next_block h')%positive.

(** Events that do not move a block along its life. *)
Definition silent (e : Event) : Prop :=
  match e with
  | EvConstruct _ _ | EvDeleter _ _ | EvDestructor _ => True
  | _ => False
  end.

(** The number of handles a program state holds. *)
Definition handles (s : Sys) : nat := (length (strongs s) + length (weaks s))%nat.

(** A statement is safe: from a state that satisfies the invariant and has
    room for one more handle below [UINT_MAX], it runs without undefined
    behaviour and re-establishes the invariant. *)
Definition step_ok (op : Op) : Prop :=
  forall s, Inv s -> Z.of_nat (handles s) < UINT_MAX ->
  exists s', step op s = Some s' /\ Inv s' /\ extends (heap s) (heap s') /\
             (handles s' <= S (handles s))%nat.

(** ** The release protocol as a program observes it *)

(** How often [destroy()] and [deallocate()] have been called on [b]. *)
Definition destroy_calls (b : block_id) (s : Sys) : nat :=
  count_events (is_destroy b) (trace (heap s)).
Definition deallocate_calls (b : block_id) (s : Sys) : nat :=
  count_events (is_deallocate b) (trace (heap s)).


(** A program stays within the capacity of the counters when no state it
    passes through (the first and the last included) holds [UINT_MAX] or
    more handles. *)
Definition within_capacity (ops : list Op) (s : Sys) : Prop :=
  forall k s', run (take k ops) s = Some s' -> Z.of_nat (handles s') < UINT_MAX.

(** ** Concrete inputs used by the examples *)

(** A payload type whose constructor throws. *)
Definition throwing_class : Class := mkClass false (fun _ => false).

(** A payload type that derives from [EnableSharedFromThis]. *)
Definition observing_class : Class := mkClass true (fun _ => true).

(** A memory holding one freshly constructed object at address 7, of a
    plain type. *)
Definition heap_with_plain_object : Heap :=
  mkHeap ∅ {[ 7%positive := construct_object plain_class [] ]} ∅ 1%positive [].

(** A memory with one block whose strong count is [n], referenced by a
    weak handle. *)
Definition heap_with_count (n : Z) : Heap :=
  mkHeap {[ 1%positive :=
              mkBlock n 1 (RegularControlBlock (object_at 7%positive) default_delete
                             std_allocator) ]}
         {[ 7%positive := construct_object plain_class [] ]}
         {[ 1%positive ]} 2%positive [EvAllocate 1%positive].

(** A small program: adopt an object, observe it, copy and release. *)
Definition demo_program : list Op :=
  [OpAdopt [1]; OpWeak 0; OpCopy 0; OpRelease 0].


(** Adopt a new object and let the handle go out of scope: with the
    three-argument constructor, and with the one-argument constructor. *)
Definition adopt_with_allocator : list Op :=
  [OpAdoptDeleterAlloc [1] default_delete std_allocator; OpRelease 0].
Definition adopt_default : list Op := [OpAdopt [1]; OpRelease 0].


(** Adopt an object and observe it; then release the strong handle. *)
Definition observe : list Op := [OpAdopt [1]; OpWeak 0].

(** Adopt an object, observe it, and copy the strong handle
    [UINT_MAX - 1] times: [UINT_MAX] strong handles and one weak handle on
    one block. *)
Definition full_program : list Op :=
  observe ++ repeat (OpCopy 0) (Z.to_nat (UINT_MAX - 1)).

(** ** Notions used by the further properties *)

(** The block that a handle references, if any, is allocated. *)
Definition weak_live (w : WeakPtr) (h : Heap) : Prop :=
  forall b, wp_cb w = Some b -> is_Some (blocks h !! b).

Definition is_deallocation (e : Event) : Prop :=
  match e with EvDeallocate _ _ => True | _ => False end.

(** From [h] to [h'] nothing happened on the strong side: the payload
    objects are the same, every block that is still there has its strong
    count and its payload as before, no block with a strong count other
    than zero has gone, and the only calls recorded are deallocations of
    blocks. *)
Definition strong_side_kept (h h' : Heap) : Prop :=
  objects h' = objects h /\
  (forall b blk', blocks h' !! b = Some blk' ->
     exists blk, blocks h !! b = Some blk /\
                 shared_count blk' = shared_count blk /\ layout blk' = layout blk) /\
  (forall b blk, blocks h !! b = Some blk -> shared_count blk <> 0 ->
     is_Some (blocks h' !! b)) /\
  exists evs, trace h' = trace h ++ evs /\ Forall is_deallocation evs.

(** The block that a strong handle references, if any, is allocated and
    its strong count is at least one. *)
Definition strong_live (x : SharedPtr) (h : Heap) : Prop :=
  forall b, sp_cb x = Some b ->
    exists blk, blocks h !! b = Some blk /\ 1 <= shared_count blk <= UINT_MAX.

(** The storage obtained and not given back is that of the blocks that
    are there. *)
Definition storage_ok (h : Heap) : Prop := allocated h = dom (blocks h).

(** A computation keeps a property of the memory whenever it returns. *)
Definition preserves {A} (P : Heap -> Prop) (m : M A) : Prop :=
  forall h a h', m h = Some (a, h') -> P h -> P h'.

(** ** Dereferencing *)

(** [operator*] (lines 206-208) reads the object at the stored pointer;
    [operator->] (lines 210-212) returns the stored pointer. *)
Definition SharedPtr_deref (this : SharedPtr) : M Object := get_object (sp_ptr this).

(** ** Handles and the payloads they point to *)












(** ** More concrete inputs *)

(** A strong and a weak handle on the block of [heap_with_count]. *)
Definition demo_strong : SharedPtr := mkSharedPtr (object_at 7%positive) (Some 1%positive).
Definition demo_weak : WeakPtr := mkWeakPtr (object_at 7%positive) (Some 1%positive).

(** Two objects, each adopted by a handle of its own. *)
Definition demo_pair : list Op := [OpAdopt [1]; OpAdopt [2]].


(** * Verification *)

(** ** Arithmetic on [uint] *)

Lemma uint_incr_small (n : Z) : 0 <= n < UINT_MAX -> uint_incr n = n + 1.
Proof.
  unfold uint_incr, UINT_MAX. intros H. apply Z.mod_small. lia.
Qed.

Lemma uint_decr_pos (n : Z) : 0 < n <= UINT_MAX -> uint_decr n = n - 1.
Proof.
  unfold uint_decr, UINT_MAX. intros H. apply Z.mod_small. lia.
Qed.

Lemma uint_incr_wraps : uint_incr UINT_MAX = 0.
Proof. reflexivity. Qed.

Lemma uint_decr_wraps : uint_decr 0 = UINT_MAX.
Proof. reflexivity. Qed.

Lemma UINT_MAX_value : UINT_MAX = 4294967295.
Proof. reflexivity. Qed.

(** ** Symbolic evaluation of the monad *)

Lemma bind_Some {A B} (m : M A) (k : A -> M B) (h : Heap) a h1 :
  m h = Some (a, h1) -> bind m k h = k a h1.
Proof. unfold bind. intros ->. reflexivity. Qed.

Lemma get_block_Some (b : block_id) (h : Heap) blk :
  blocks h !! b = Some blk -> get_block b h = Some (blk, h).
Proof. unfold get_block. intros ->. reflexivity. Qed.

Lemma put_block_Some (b : block_id) (h : Heap) blk0 blk :
  blocks h !! b = Some blk0 ->
  put_block b blk h =
    Some (tt, mkHeap (<[b := blk]> (blocks h)) (objects h) (allocated h)
                     (next_block h) (trace h)).
Proof. unfold put_block. intros ->. reflexivity. Qed.

Ltac run_monad :=
  repeat (progress
    (unfold bind, ret, log, allocate, construct_block, get_block, put_block,
            set_shared_count, set_weak_count, set_layout;
     cbn [blocks objects allocated next_block trace sp_cb sp_ptr wp_cb wp_ptr
          shared_count weak_count layout fields enable_wp fst snd];
     change (1 =? 0) with false; change (0 =? 0) with true;
     change (2 =? 0) with false;
     cbn [andb orb negb];
     cbv beta iota;
     rewrite ?lookup_insert_eq, ?insert_insert_eq)).

Ltac run_with H := repeat (progress (run_monad; rewrite ?H)).

(** ** Adoption of a raw pointer *)

(** C10.  For a payload type that does not derive from
    [EnableSharedFromThis], adopting a null pointer still allocates a
    control block with strong count one: the handle has
    [use_count() == 1] and [get() == nullptr], whereas a
    default-constructed handle has [use_count() == 0] and
    [get() == nullptr]. *)
Theorem adopt_null_vs_empty (U : Class) (h : Heap) :
  derives_esft U = false ->
  exists s h',
    SharedPtr_adopt U nullptr h = Some (s, h') /\
    sp_cb s = Some (next_block h) /\
    blocks h' !! next_block h =
      Some (mkBlock 1 0 (RegularControlBlock nullptr default_delete std_allocator)) /\
    next_block h ∈ allocated h' /\
    SharedPtr_use_count s h' = Some (1, h') /\
    SharedPtr_get s = nullptr /\
    SharedPtr_use_count SharedPtr_default h = Some (0, h) /\
    SharedPtr_get SharedPtr_default = nullptr.
Proof.
  intros HU. unfold SharedPtr_adopt. rewrite HU.
  eexists _, _. split; [reflexivity|]. unfold SharedPtr_use_count. run_monad.
  repeat split; try reflexivity. set_solver.
Qed.

Lemma SharedPtr_adopt_plain (U : Class) (p : pointer) (h : Heap) :
  derives_esft U = false ->
  SharedPtr_adopt U p h =
    Some (mkSharedPtr p (Some (next_block h)),
          mkHeap (<[next_block h :=
                      mkBlock 1 0 (RegularControlBlock p default_delete std_allocator)]>
                    (blocks h))
                 (objects h) ({[ next_block h ]} ∪ allocated h)
                 (Pos.succ (next_block h))
                 (trace h ++ [EvAllocate (next_block h)])).
Proof. intros HU. unfold SharedPtr_adopt. rewrite HU. reflexivity. Qed.

(** ** Access to private members *)

(** Every use of another class's private members that the header makes
    outside self-observation is covered by a friend declaration: the
    conversions between strong and weak handles (lines 88, 238, 294) and
    the factory's writes to [shp.cb] and [shp.ptr] (lines 335, 337). *)
Lemma friend_declarations :
  may_access class_WeakPtr class_SharedPtr = true /\
  may_access class_SharedPtr class_WeakPtr = true /\
  may_access function_allocateShared class_SharedPtr = true /\
  may_access class_SharedPtr class_SharedPtr = true /\
  may_access class_WeakPtr class_WeakPtr = true.
Proof. repeat split; reflexivity. Qed.

(** The two uses that self-observation makes are not: line 318 befriends
    [SharePtr], so [SharedPtr] may not name [enable_wp], and no
    declaration of [SharedPtr] befriends [EnableSharedFromThis]. *)
Lemma self_observation_access :
  may_access class_SharedPtr class_EnableSharedFromThis = false /\
  may_access class_EnableSharedFromThis class_SharedPtr = false.
Proof. split; reflexivity. Qed.

Lemma populate_enable_wp_ill_formed (other_ptr : pointer) (this : SharedPtr) (h : Heap) :
  populate_enable_wp other_ptr this h = None.
Proof. reflexivity. Qed.

Lemma SharedPtr_adopt_ill_formed (U : Class) (p : pointer) (h : Heap) :
  derives_esft U = true -> SharedPtr_adopt U p h = None.
Proof. intros HU. unfold SharedPtr_adopt. rewrite HU. reflexivity. Qed.

(** C9 fails on the code.  For a payload type that does not derive from
    [EnableSharedFromThis], adopting a raw pointer with the default policy
    allocates one fresh [RegularControlBlock] holding the pointer,
    [std::default_delete] and [std::allocator], with strong count one and
    weak count zero, and changes nothing else.  For a payload type that
    does, the constructor names [enable_wp], which [SharedPtr] may not
    access: the adoption is ill-formed, with each of the three adopting
    constructors, and no embedded weak handle is ever populated. *)
Theorem adopt_default_policy (U : Class) (p : pointer) (h : Heap) :
  let b := next_block h in
  (derives_esft U = false ->
   SharedPtr_adopt U p h =
     Some (mkSharedPtr p (Some b),
           mkHeap (<[b := mkBlock 1 0 (RegularControlBlock p default_delete std_allocator)]>
                     (blocks h))
                  (objects h) ({[ b ]} ∪ allocated h) (Pos.succ b)
                  (trace h ++ [EvAllocate b]))) /\
  may_access class_SharedPtr class_EnableSharedFromThis = false /\
  (derives_esft U = true ->
   SharedPtr_adopt U p h = None /\
   (forall d, SharedPtr_adopt_deleter U p d h = None) /\
   (forall d a, SharedPtr_adopt_deleter_alloc U p d a h = None)).
Proof.
  intros b. split; [apply SharedPtr_adopt_plain|]. split; [reflexivity|].
  intros HU. split; [apply SharedPtr_adopt_ill_formed, HU|].
  split; intros; [unfold SharedPtr_adopt_deleter|unfold SharedPtr_adopt_deleter_alloc];
    rewrite HU; run_monad; reflexivity.
Qed.

(** ** Self-observation *)

(** C8 fails on the code.  [shared_from_this()] calls the private
    constructor of [SharedPtr] from a member of [EnableSharedFromThis],
    which no declaration of [SharedPtr] befriends, and adopting a pointer
    to a type that derives from [EnableSharedFromThis] names the private
    [enable_wp] from [SharedPtr], where line 318 befriends [SharePtr]:
    neither the adoption nor the call is well-formed, in any memory, so no
    program performs the round trip. *)
Theorem shared_from_this_ill_formed :
  friends class_EnableSharedFromThis = [class_SharePtr] /\
  may_access class_SharedPtr class_EnableSharedFromThis = false /\
  may_access class_EnableSharedFromThis class_SharedPtr = false /\
  (forall U p h, derives_esft U = true -> SharedPtr_adopt U p h = None) /\
  (forall this_ptr h, shared_from_this this_ptr h = None).
Proof.
  split; [reflexivity|]. split; [reflexivity|]. split; [reflexivity|].
  split; [exact SharedPtr_adopt_ill_formed|]. reflexivity.
Qed.

(** ** The factory *)

(** C5.  When the payload's constructor returns, [allocateShared] performs
    exactly one allocation, of a [MakeSharedControlBlock]; the payload is
    constructed from the forwarded arguments in the block's inline
    storage, the block has strong count one and holds the allocator, and
    the handle returned points to the in-block storage.  No separate
    payload object is allocated.  [makeShared] is [allocateShared] with
    [std::allocator]. *)
Theorem allocateShared_spec (T : Class) (alloc : Alloc) (args : list Z) (h : Heap) :
  ctor_succeeds T args = true ->
  let b := next_block h in
  let s := mkSharedPtr (storage_of b) (Some b) in
  let h' := mkHeap (<[b := mkBlock 1 0 (MakeSharedControlBlock
                                          (Some (construct_object T args)) alloc)]>
                      (blocks h))
                   (objects h) ({[ b ]} ∪ allocated h) (Pos.succ b)
                   (trace h ++ [EvAllocate b; EvConstruct b args]) in
  allocateShared T alloc args h = Some (Returned s, h') /\
  get_object (SharedPtr_get s) h' = Some (construct_object T args, h') /\
  fields (construct_object T args) = args /\
  SharedPtr_use_count s h' = Some (1, h') /\
  (makeShared T args h = allocateShared T std_allocator args h).
Proof.
  intros Hc b s h'.
  split; [|split; [|split; [reflexivity|split; [|reflexivity]]]].
  - unfold allocateShared. run_monad. rewrite Hc. run_monad.
    rewrite <- app_assoc. reflexivity.
  - unfold get_object, h', s, SharedPtr_get. run_monad. reflexivity.
  - unfold SharedPtr_use_count, h', s. run_monad. reflexivity.
Qed.

Lemma allocateShared_throws (T : Class) (alloc : Alloc) (args : list Z) (h : Heap) :
  ctor_succeeds T args = false ->
  allocateShared T alloc args h =
    Some (Thrown, mkHeap (blocks h) (objects h) ({[ next_block h ]} ∪ allocated h)
                         (Pos.succ (next_block h))
                         (trace h ++ [EvAllocate (next_block h)])).
Proof.
  intros Hc. unfold allocateShared. run_monad. rewrite Hc. reflexivity.
Qed.

(** C6 fails on the code.  When the payload's constructor throws,
    [allocateShared] produces no handle and the exception leaves the
    function, but the storage obtained at line 332 is still allocated:
    there is no call to [deallocate] on the way out. *)
Theorem allocateShared_throw_leaks :
  exists h',
    allocateShared throwing_class std_allocator [1; 2] empty_heap = Some (Thrown, h') /\
    allocated h' = {[ 1%positive ]} /\
    blocks h' = ∅ /\
    trace h' = [EvAllocate 1%positive] /\
    count_events (is_deallocate 1%positive) (trace h') = 0%nat.
Proof.
  eexists. split.
  - apply allocateShared_throws. reflexivity.
  - simpl. repeat split; reflexivity.
Qed.

(** ** Expiry and promotion *)


(** [lock()] on a weak handle whose block, if it has one, is allocated and
    has a strong count below [UINT_MAX]. *)
Lemma WeakPtr_lock_spec (w : WeakPtr) (h : Heap) :
  (forall b, wp_cb w = Some b ->
     exists blk, blocks h !! b = Some blk /\ 0 <= shared_count blk < UINT_MAX) ->
  exists e n0 s h' n,
    WeakPtr_expired w h = Some (e, h) /\
    WeakPtr_use_count w h = Some (n0, h) /\
    WeakPtr_lock w h = Some (s, h') /\
    SharedPtr_use_count s h' = Some (n, h') /\
    (e = true <-> n = 0 /\ SharedPtr_get s = nullptr) /\
    (e = true -> s = SharedPtr_default /\ h' = h) /\
    (e = false ->
       sp_cb s = wp_cb w /\ is_Some (sp_cb s) /\ SharedPtr_get s = wp_ptr w /\ n = n0 + 1).
Proof.
  intros Hlive. unfold WeakPtr_lock, WeakPtr_expired, WeakPtr_use_count.
  destruct w as [p [b|]]; cbn [wp_cb wp_ptr] in *.
  - destruct (Hlive b eq_refl) as (blk & Hblk & Hrange).
    run_monad. rewrite Hblk. cbv beta iota.
    destruct (shared_count blk =? 0) eqn:H0.
    + apply Z.eqb_eq in H0. exists true, (shared_count blk), SharedPtr_default, h, 0.
      repeat split; try reflexivity; try discriminate.
    + apply Z.eqb_neq in H0.
      unfold SharedPtr_from_weak. run_with Hblk.
      rewrite uint_incr_small by exact Hrange.
      eexists false, _, _, _, _. split; [reflexivity|]. split; [reflexivity|].
      split; [reflexivity|]. unfold SharedPtr_use_count. run_monad.
      split; [reflexivity|]. split; [|split]; [| discriminate |].
      * split; [discriminate|]. intros [Hn _]. lia.
      * intros _. unfold SharedPtr_get. cbn. eauto.
  - exists true, 0, SharedPtr_default, h, 0. repeat split; try reflexivity; try discriminate.
Qed.

(** The bound is needed: at [UINT_MAX] the increment wraps, and a weak
    handle that is not expired locks into a handle whose [use_count()] is
    zero. *)
Example lock_at_UINT_MAX :
  let w := mkWeakPtr (object_at 7%positive) (Some 1%positive) in
  exists s h',
    WeakPtr_expired w (heap_with_count UINT_MAX) = Some (false, heap_with_count UINT_MAX) /\
    WeakPtr_lock w (heap_with_count UINT_MAX) = Some (s, h') /\
    SharedPtr_use_count s h' = Some (0, h').
Proof.
  eexists _, _. split; [reflexivity|]. split; vm_compute; reflexivity.
Qed.

(** ** Payload destruction on the three adoption paths *)

(** C2 fails on the code.  [SharedPtr(U*, Delete, Alloc)] never stores the
    adopted pointer in the block it creates, so when the last strong
    handle is released [destroy()] calls the deleter on a null pointer
    and the payload is never destroyed; the sibling constructor
    [SharedPtr(U*, Delete)] stores it and the payload is destroyed. *)
Theorem adopt_deleter_alloc_skips_payload :
  exists s h1 h2,
    SharedPtr_adopt_deleter_alloc plain_class (object_at 7%positive)
      default_delete std_allocator heap_with_plain_object = Some (s, h1) /\
    SharedPtr_get s = object_at 7%positive /\
    SharedPtr_use_count s h1 = Some (1, h1) /\
    SharedPtr_dtor s h1 = Some (tt, h2) /\
    trace h2 = [EvAllocate 1%positive; EvDestroy 1%positive;
                EvDeleter default_delete nullptr;
                EvDeallocate 1%positive std_allocator] /\
    objects h2 !! 7%positive = Some (construct_object plain_class []) /\
    (exists s' h1' h2',
       SharedPtr_adopt_deleter plain_class (object_at 7%positive)
         default_delete heap_with_plain_object = Some (s', h1') /\
       SharedPtr_dtor s' h1' = Some (tt, h2') /\
       trace h2' = [EvAllocate 1%positive; EvDestroy 1%positive;
                    EvDeleter default_delete (object_at 7%positive);
                    EvDestructor (object_at 7%positive);
                    EvDeallocate 1%positive std_allocator] /\
       objects h2' !! 7%positive = None).
Proof.
  eexists _, _, _. split; [vm_compute; reflexivity|]. split; [reflexivity|].
  split; [vm_compute; reflexivity|]. split; [vm_compute; reflexivity|].
  split; [reflexivity|]. split; [vm_compute; reflexivity|].
  eexists _, _, _. split; [vm_compute; reflexivity|].
  split; [vm_compute; reflexivity|]. split; vm_compute; reflexivity.
Qed.

(** ** Counting references in a list of handles *)

Section Refs.
Context {A : Type} (cb : A -> option block_id).

Lemma refs_nil b : refs cb b [] = 0%nat.
Proof. reflexivity. Qed.

Lemma refs_cons b x l : refs cb b (x :: l) = (unit_of (cb x) b + refs cb b l)%nat.
Proof.
  unfold refs, unit_of. rewrite filter_cons.
  destruct (decide (cb x = Some b)); reflexivity.
Qed.

Lemma refs_app b l1 l2 : refs cb b (l1 ++ l2) = (refs cb b l1 + refs cb b l2)%nat.
Proof. unfold refs. rewrite filter_app, length_app. reflexivity. Qed.

Lemma refs_snoc b l x : refs cb b (l ++ [x]) = (refs cb b l + unit_of (cb x) b)%nat.
Proof. rewrite refs_app, refs_cons, refs_nil. lia. Qed.

Lemma refs_delete b l i x :
  l !! i = Some x ->
  refs cb b l = (refs cb b (delete i l) + unit_of (cb x) b)%nat.
Proof.
  revert i. induction l as [|y l IH]; intros [|i] Hi; try discriminate.
  - injection Hi as ->. cbn [delete list_delete]. rewrite refs_cons. lia.
  - cbn [delete list_delete]. rewrite !refs_cons. cbn in Hi. rewrite (IH i Hi), Nat.add_assoc. reflexivity.
Qed.

Lemma refs_insert b l i x y :
  l !! i = Some x ->
  (refs cb b (<[i := y]> l) + unit_of (cb x) b = refs cb b l + unit_of (cb y) b)%nat.
Proof.
  revert i. induction l as [|z l IH]; intros [|i] Hi; try discriminate.
  - injection Hi as ->. unfold insert. cbn [list_insert]. rewrite !refs_cons. lia.
  - cbn in Hi. specialize (IH i Hi). unfold insert in *. cbn [list_insert].
    rewrite !refs_cons. unfold insert. lia.
Qed.

Lemma refs_le_length b l : (refs cb b l <= length l)%nat.
Proof. unfold refs. apply length_filter. Qed.

Lemma refs_unit_le b l x : x ∈ l -> (unit_of (cb x) b <= refs cb b l)%nat.
Proof.
  intros Hx. apply list_elem_of_lookup in Hx as [i Hi].
  rewrite (refs_delete b l i x Hi). lia.
Qed.
End Refs.

Lemma unit_of_None b : unit_of None b = 0%nat.
Proof. reflexivity. Qed.

Lemma unit_of_same b : unit_of (Some b) b = 1%nat.
Proof. unfold unit_of. rewrite decide_True; reflexivity. Qed.


(** ** The life of a block along a trace *)

Lemma life_snoc b tr e : life b (tr ++ [e]) = life_step b (life b tr) e.
Proof. unfold life. rewrite fold_left_app. reflexivity. Qed.


Lemma life_step_silent b l e : silent e -> life_step b l e = l.
Proof. destruct e; cbn; intros []; reflexivity. Qed.

Lemma life_app_silent b tr evs :
  Forall silent evs -> life b (tr ++ evs) = life b tr.
Proof.
  intros H. revert tr. induction H as [|e evs He _ IH]; intros tr.
  - rewrite app_nil_r. reflexivity.
  - change (e :: evs) with ([e] ++ evs). rewrite app_assoc, IH, life_snoc.
    apply life_step_silent, He.
Qed.

Lemma life_step_other b b' l e :
  b' <> b ->
  e = EvAllocate b' \/ e = EvDestroy b' \/ (exists a, e = EvDeallocate b' a) ->
  life_step b l e = l.
Proof.
  intros Hne [->|[->|[a ->]]]; cbn; rewrite decide_False; auto.
Qed.

(** ** Framing the block invariant *)

Ltac hsimpl :=
  cbn [blocks objects allocated next_block trace shared_count weak_count layout
       heap strongs weaks sp_cb sp_ptr wp_cb wp_ptr] in *.

Lemma HInv_ext (h : Heap) (ns nw ns' nw' : block_id -> nat) :
  (forall b, ns' b = ns b) -> (forall b, nw' b = nw b) ->
  HInv h ns nw -> HInv h ns' nw'.
Proof.
  intros Hs Hw (Hb & Hp & Hu). split; [|split]; try assumption.
  intros b. specialize (Hb b). unfold block_inv in *.
  rewrite Hs, Hw. exact Hb.
Qed.

Lemma block_inv_frame (h h' : Heap) (ns nw ns' nw' : block_id -> nat) (b : block_id) :
  blocks h' !! b = blocks h !! b ->
  ns' b = ns b -> nw' b = nw b ->
  ((b < next_block h')%positive <-> (b < next_block h)%positive) ->
  life b (trace h') = life b (trace h) ->
  (forall blk, blocks h !! b = Some blk -> ns b <> 0%nat ->
               payload_ok h blk -> payload_ok h' blk) ->
  block_inv h ns nw b -> block_inv h' ns' nw' b.
Proof.
  intros Hblk Hs Hw Hnext Hlife Hpay. unfold block_inv.
  rewrite Hblk, Hs, Hw, Hlife. destruct (blocks h !! b) as [blk|] eqn:E.
  - intros (H1 & H2 & H3 & (Hb1 & Hb2) & H4 & H5 & H6). repeat split; auto.
    apply Hnext, H4.
  - intros (H1 & H2 & H3). repeat split; auto. rewrite H3.
    destruct (decide (b < next_block h)%positive), (decide (b < next_block h')%positive);
      tauto.
Qed.

Lemma payload_ok_same_objects h h' blk :
  objects h' = objects h -> payload_ok h blk -> payload_ok h' blk.
Proof. unfold payload_ok. intros ->. auto. Qed.

Lemma HInv_block (h : Heap) (ns nw : block_id -> nat) (b : block_id) blk :
  HInv h ns nw -> blocks h !! b = Some blk ->
  shared_count blk = Z.of_nat (ns b) /\
  weak_count blk = Z.of_nat (nw b) /\
  (ns b + nw b <> 0)%nat /\
  (Z.of_nat (ns b) <= UINT_MAX /\ Z.of_nat (nw b) <= UINT_MAX) /\
  (b < next_block h)%positive /\
  (ns b <> 0%nat -> payload_ok h blk) /\
  life b (trace h) = (if decide (ns b = 0%nat) then Destroyed else Alive).
Proof.
  intros (Hb & _) E. specialize (Hb b). unfold block_inv in Hb. rewrite E in Hb. exact Hb.
Qed.

Lemma HInv_live (h : Heap) (ns nw : block_id -> nat) (b : block_id) :
  HInv h ns nw -> (ns b + nw b <> 0)%nat -> is_Some (blocks h !! b).
Proof.
  intros (Hb & _) Hn. specialize (Hb b). unfold block_inv in Hb.
  destruct (blocks h !! b); [eauto|]. lia.
Qed.

Lemma HInv_dead (h : Heap) (ns nw : block_id -> nat) (b : block_id) :
  HInv h ns nw -> blocks h !! b = None ->
  ns b = 0%nat /\ nw b = 0%nat /\
  life b (trace h) = (if decide (b < next_block h)%positive then Freed else Unborn).
Proof.
  intros (Hb & _) E. specialize (Hb b). unfold block_inv in Hb. rewrite E in Hb. exact Hb.
Qed.

(** The workhorse: an operation that touches block [b] only. *)
Lemma HInv_transfer (h h' : Heap) (ns nw ns' nw' : block_id -> nat) (b : block_id) :
  HInv h ns nw ->
  (forall b', b' <> b -> blocks h' !! b' = blocks h !! b') ->
  (forall b', b' <> b -> ns' b' = ns b') ->
  (forall b', b' <> b -> nw' b' = nw b') ->
  (forall b', b' <> b ->
     ((b' < next_block h')%positive <-> (b' < next_block h)%positive)) ->
  (forall b', b' <> b -> life b' (trace h') = life b' (trace h)) ->
  (forall b' blk', b' <> b -> blocks h !! b' = Some blk' -> ns b' <> 0%nat ->
     payload_ok h blk' -> payload_ok h' blk') ->
  plain_objects h' ->
  block_inv h' ns' nw' b ->
  (forall blk a b2 blk2, blocks h' !! b = Some blk -> owns blk a ->
     b2 <> b -> blocks h !! b2 = Some blk2 -> owns blk2 a -> False) ->
  HInv h' ns' nw'.
Proof.
  intros (Hb & Hp & Hu) Hblk Hs Hw Hnext Hlife Hpay Hplain Hbi Hown.
  split; [|split]; [|assumption|].
  - intros b'. destruct (decide (b' = b)) as [->|Hne]; [assumption|].
    apply (block_inv_frame h h' ns nw); auto. intros blk. apply Hpay. assumption.
  - intros b1 b2 blk1 blk2 a.
    destruct (decide (b1 = b)) as [->|N1], (decide (b2 = b)) as [->|N2]; auto.
    + rewrite (Hblk b2) by assumption. intros E1 E2 O1 O2. exfalso. eauto.
    + rewrite (Hblk b1) by assumption. intros E1 E2 O1 O2. exfalso. eauto.
    + rewrite (Hblk b1), (Hblk b2) by assumption. apply Hu.
Qed.

Lemma extends_refl (h : Heap) : extends h h.
Proof. split; [exists []; rewrite app_nil_r; reflexivity | reflexivity]. Qed.

Lemma extends_trans (h1 h2 h3 : Heap) : extends h1 h2 -> extends h2 h3 -> extends h1 h3.
Proof.
  intros [[e1 H1] N1] [[e2 H2] N2]. split.
  - exists (e1 ++ e2). rewrite H2, H1, app_assoc. reflexivity.
  - etransitivity; eassumption.
Qed.

Lemma extends_same (h h' : Heap) :
  trace h' = trace h -> next_block h' = next_block h -> extends h h'.
Proof.
  intros Ht Hn. split; [exists []; rewrite app_nil_r; exact Ht | rewrite Hn; reflexivity].
Qed.

(** Changing only the counts of one block. *)
Lemma HInv_set_counts (h : Heap) (ns nw ns' nw' : block_id -> nat) (b : block_id) blk s w :
  HInv h ns nw ->
  blocks h !! b = Some blk ->
  (forall b', b' <> b -> ns' b' = ns b') ->
  (forall b', b' <> b -> nw' b' = nw b') ->
  s = Z.of_nat (ns' b) -> w = Z.of_nat (nw' b) ->
  (ns' b = 0%nat <-> ns b = 0%nat) -> (ns' b + nw' b <> 0)%nat ->
  Z.of_nat (ns' b) <= UINT_MAX -> Z.of_nat (nw' b) <= UINT_MAX ->
  HInv (mkHeap (<[b := mkBlock s w (layout blk)]> (blocks h)) (objects h)
               (allocated h) (next_block h) (trace h)) ns' nw'.
Proof.
  intros HI E Hs Hw -> -> Hn Hn' B1 B2.
  destruct (HInv_block _ _ _ _ _ HI E) as (H1 & H2 & H3 & _ & H4 & H5 & H6).
  apply (HInv_transfer h _ ns nw ns' nw' b); auto; hsimpl.
  - intros b' Hne. apply lookup_insert_ne. congruence.
  - apply HI.
  - unfold block_inv. hsimpl. rewrite lookup_insert_eq. hsimpl.
    split; [reflexivity|]. split; [reflexivity|]. split; [assumption|].
    split; [split; assumption|]. split; [assumption|]. split.
    + intros Hx. apply (payload_ok_same_objects h); [reflexivity|]. apply H5. tauto.
    + rewrite H6. destruct (decide (ns b = 0%nat)), (decide (ns' b = 0%nat)); tauto.
  - intros blk' a b2 blk2. rewrite lookup_insert_eq. intros [= <-] [Hc [al O1]] N2 E2 O2.
    hsimpl. destruct HI as (_ & _ & Hu). apply N2. apply (Hu b2 b blk2 blk a); auto.
    split; [lia|eauto].
Qed.

Lemma incr_same (b : block_id) (n : block_id -> nat) : incr b n b = S (n b).
Proof. unfold incr. rewrite decide_True; reflexivity. Qed.
Lemma incr_other (b b' : block_id) (n : block_id -> nat) : b' <> b -> incr b n b' = n b'.
Proof. intros H. unfold incr. rewrite decide_False; [reflexivity|assumption]. Qed.
Lemma decr_same (b : block_id) (n : block_id -> nat) : decr b n b = pred (n b).
Proof. unfold decr. rewrite decide_True; reflexivity. Qed.
Lemma decr_other (b b' : block_id) (n : block_id -> nat) : b' <> b -> decr b n b' = n b'.
Proof. intros H. unfold decr. rewrite decide_False; [reflexivity|assumption]. Qed.

(** ** The primitive operations preserve the invariant *)

Lemma SharedPtr_copy_inv (h : Heap) (ns nw : block_id -> nat) (p : pointer) (b : block_id) :
  HInv h ns nw -> ns b <> 0%nat -> Z.of_nat (ns b) < UINT_MAX ->
  exists h',
    SharedPtr_copy (mkSharedPtr p (Some b)) h = Some (mkSharedPtr p (Some b), h') /\
    HInv h' (incr b ns) nw /\ extends h h'.
Proof.
  intros HI Hn Hb.
  destruct (HInv_live h ns nw b HI) as [blk E]; [lia|].
  destruct (HInv_block _ _ _ _ _ HI E) as (H1 & H2 & H3 & (B1 & B2) & H4 & H5 & H6).
  unfold SharedPtr_copy. hsimpl. run_monad. rewrite E. run_monad. rewrite E. run_monad.
  eexists. split; [reflexivity|]. split.
  - apply (HInv_set_counts h ns nw); auto.
    + intros b' Hne. apply incr_other, Hne.
    + rewrite incr_same, H1. rewrite uint_incr_small by lia. lia.
    + rewrite incr_same. lia.
    + rewrite incr_same. lia.
    + rewrite incr_same. lia.
  - apply extends_same; reflexivity.
Qed.

Lemma SharedPtr_from_weak_inv (h : Heap) (ns nw : block_id -> nat) (p : pointer)
    (b : block_id) :
  HInv h ns nw -> ns b <> 0%nat -> Z.of_nat (ns b) < UINT_MAX ->
  exists h',
    SharedPtr_from_weak (mkWeakPtr p (Some b)) h = Some (mkSharedPtr p (Some b), h') /\
    HInv h' (incr b ns) nw /\ extends h h'.
Proof. exact (SharedPtr_copy_inv h ns nw p b). Qed.

Lemma WeakPtr_copy_inv (h : Heap) (ns nw : block_id -> nat) (p : pointer) (b : block_id) :
  HInv h ns nw -> (ns b + nw b <> 0)%nat -> Z.of_nat (nw b) < UINT_MAX ->
  exists h',
    WeakPtr_copy (mkWeakPtr p (Some b)) h = Some (mkWeakPtr p (Some b), h') /\
    HInv h' ns (incr b nw) /\ extends h h'.
Proof.
  intros HI Hn Hb.
  destruct (HInv_live h ns nw b HI) as [blk E]; [lia|].
  destruct (HInv_block _ _ _ _ _ HI E) as (H1 & H2 & H3 & (B1 & B2) & H4 & H5 & H6).
  unfold WeakPtr_copy. hsimpl. run_monad. rewrite E. run_monad. rewrite E. run_monad.
  eexists. split; [reflexivity|]. split.
  - apply (HInv_set_counts h ns nw); auto.
    + intros b' Hne. apply incr_other, Hne.
    + rewrite incr_same, H2. rewrite uint_incr_small by lia. lia.
    + rewrite incr_same. lia.
    + rewrite incr_same. lia.
  - apply extends_same; reflexivity.
Qed.
Lemma life_dealloc_other (b b' : block_id) (tr : list Event) (a : Alloc) :
  b' <> b -> life b' (tr ++ [EvDeallocate b a]) = life b' tr.
Proof.
  intros Hne. rewrite life_snoc. apply life_step_other with (b' := b); eauto.
Qed.

Lemma WeakPtr_dtor_inv (h : Heap) (ns nw : block_id -> nat) (p : pointer) (b : block_id) :
  HInv h ns nw -> nw b <> 0%nat ->
  exists h',
    WeakPtr_dtor (mkWeakPtr p (Some b)) h = Some (tt, h') /\
    HInv h' ns (decr b nw) /\ extends h h'.
Proof.
  intros HI Hn.
  destruct (HInv_live h ns nw b HI) as [blk E]; [lia|].
  destruct (HInv_block _ _ _ _ _ HI E) as (H1 & H2 & H3 & (B1 & B2) & H4 & H5 & H6).
  unfold WeakPtr_dtor. hsimpl. run_monad. rewrite E. run_monad. rewrite E. run_monad.
  rewrite H1, H2, uint_decr_pos by lia.
  destruct (decide (nw b = 1%nat /\ ns b = 0%nat)) as [[Hw1 Hs0]|Hno].
  - replace (Z.of_nat (nw b) - 1 =? 0) with true by (symmetry; apply Z.eqb_eq; lia).
    replace (Z.of_nat (ns b) =? 0) with true by (symmetry; apply Z.eqb_eq; lia).
    cbn [andb]. unfold deallocate. hsimpl. rewrite lookup_insert_eq.
    eexists. split; [reflexivity|]. split.
    + apply (HInv_transfer h _ ns nw ns (decr b nw) b); [exact HI|..]; hsimpl.
      * intros b' Hne. rewrite lookup_delete_ne, lookup_insert_ne by congruence.
        reflexivity.
      * reflexivity.
      * intros b' Hne. apply decr_other, Hne.
      * tauto.
      * intros b' Hne. apply life_dealloc_other. assumption.
      * intros b' blk' _ _ _ Hok. exact Hok.
      * apply HI.
      * unfold block_inv. hsimpl. rewrite lookup_delete_eq. rewrite decr_same.
        split; [assumption|]. split; [lia|].
        rewrite life_snoc, H6. rewrite decide_True by assumption.
        cbn. rewrite !decide_True by (reflexivity || assumption). reflexivity.
      * intros blk' a b2 blk2. rewrite lookup_delete_eq. discriminate.
    + split; [eexists; reflexivity|reflexivity].
  - replace ((Z.of_nat (nw b) - 1 =? 0) && (Z.of_nat (ns b) =? 0)) with false.
    2:{ symmetry. apply andb_false_iff. rewrite !Z.eqb_neq. lia. }
    eexists. split; [reflexivity|]. split.
    + apply (HInv_set_counts h ns nw); auto.
      * intros b' Hne. apply decr_other, Hne.
      * rewrite decr_same. lia.
      * rewrite decr_same. lia.
      * rewrite decr_same. lia.
    + apply extends_same; reflexivity.
Qed.

Lemma life_destroy (b b' : block_id) (tr evs : list Event) :
  Forall silent evs ->
  life b' (tr ++ EvDestroy b :: evs) = life_step b' (life b' tr) (EvDestroy b).
Proof.
  intros Hs. change (EvDestroy b :: evs) with ([EvDestroy b] ++ evs).
  rewrite app_assoc, life_app_silent by assumption. apply life_snoc.
Qed.

(** [destroy()] on a block whose payload is there. *)
Lemma destroy_spec (h : Heap) (b : block_id) (blk : BaseControlBlock) :
  blocks h !! b = Some blk -> payload_ok h blk -> plain_objects h ->
  exists l' evs objs',
    destroy b h =
      Some (tt, mkHeap (<[b := set_layout l' blk]> (blocks h)) objs' (allocated h)
                       (next_block h) (trace h ++ EvDestroy b :: evs)) /\
    Forall silent evs /\
    allocator_of l' = allocator_of (layout blk) /\
    (objs' = objects h \/
     exists a al, layout blk = RegularControlBlock (object_at a) default_delete al /\
                  objs' = delete a (objects h)).
Proof.
  intros E Hok Hplain. unfold destroy. run_with E.
  unfold payload_ok in Hok.
  destruct (layout blk) as [p d al|[o|] al] eqn:El; [| |contradiction].
  - unfold call_deleter. destruct d as [|d].
    + destruct p as [|a|b0]; [| |contradiction].
      * run_with E.
        eexists _, [_], _. split; [|split; [|split]].
        -- rewrite <- ?app_assoc. reflexivity.
        -- repeat constructor.
        -- reflexivity.
        -- left. reflexivity.
      * destruct Hok as [o Ho]. unfold get_object. run_with Ho.
        unfold Object_dtor. rewrite (Hplain a o Ho). unfold free_object.
        run_with Ho. run_with E.
        eexists _, [_; _], _. split; [|split; [|split]].
        -- rewrite <- ?app_assoc. reflexivity.
        -- repeat constructor.
        -- reflexivity.
        -- right. eauto.
    + run_with E.
      eexists _, [_], _. split; [|split; [|split]].
      * rewrite <- ?app_assoc. reflexivity.
      * repeat constructor.
      * reflexivity.
      * left. reflexivity.
  - unfold Object_dtor. rewrite Hok. run_with E.
    eexists _, [_], _. split; [|split; [|split]].
    * rewrite <- ?app_assoc. reflexivity.
    * repeat constructor.
    * reflexivity.
    * left. reflexivity.
Qed.
Lemma payload_ok_after_destroy (h h' : Heap) (ns nw : block_id -> nat) (b : block_id)
    (blk : BaseControlBlock) :
  HInv h ns nw -> blocks h !! b = Some blk -> ns b <> 0%nat ->
  (objects h' = objects h \/
   exists a al, layout blk = RegularControlBlock (object_at a) default_delete al /\
                objects h' = delete a (objects h)) ->
  forall b' blk', b' <> b -> blocks h !! b' = Some blk' -> ns b' <> 0%nat ->
                  payload_ok h blk' -> payload_ok h' blk'.
Proof.
  intros HI E Hn [Ho|(a & al & El & Ho)] b' blk' Hne E' Hn' Hok.
  - apply (payload_ok_same_objects h); assumption.
  - unfold payload_ok in *. rewrite Ho.
    destruct (layout blk') as [[|a'|?] [|?] al'|] eqn:El'; auto.
    destruct (decide (a' = a)) as [->|Ha].
    + exfalso. apply Hne.
      destruct (HInv_block h ns nw b blk HI E) as (H1 & _).
      destruct (HInv_block h ns nw b' blk' HI E') as (H1' & _).
      destruct HI as (Hb & _ & Hu).
      apply (Hu b' b blk' blk a); auto; (split; [lia|eauto]).
    + rewrite lookup_delete_ne by congruence. exact Hok.
Qed.

Lemma plain_after_destroy (h h' : Heap) (blk : BaseControlBlock) :
  plain_objects h ->
  (objects h' = objects h \/
   exists a al, layout blk = RegularControlBlock (object_at a) default_delete al /\
                objects h' = delete a (objects h)) ->
  plain_objects h'.
Proof.
  intros Hp [Ho|(a & al & _ & Ho)] a' o; rewrite Ho.
  - apply Hp.
  - intros H. apply lookup_delete_Some in H as [_ H]. apply (Hp a' o H).
Qed.

Lemma life_destroy_other (b b' : block_id) (tr evs : list Event) :
  b' <> b -> Forall silent evs -> life b' (tr ++ EvDestroy b :: evs) = life b' tr.
Proof.
  intros Hne Hs. rewrite life_destroy by assumption.
  apply life_step_other with (b' := b); eauto.
Qed.

Lemma SharedPtr_dtor_inv (h : Heap) (ns nw : block_id -> nat) (p : pointer) (b : block_id) :
  HInv h ns nw -> ns b <> 0%nat ->
  exists h',
    SharedPtr_dtor (mkSharedPtr p (Some b)) h = Some (tt, h') /\
    HInv h' (decr b ns) nw /\ extends h h'.
Proof.
  intros HI Hn.
  destruct (HInv_live h ns nw b HI) as [blk E]; [lia|].
  destruct (HInv_block _ _ _ _ _ HI E) as (H1 & H2 & H3 & (B1 & B2) & H4 & H5 & H6).
  unfold SharedPtr_dtor. hsimpl. run_with E.
  rewrite H1, uint_decr_pos by lia.
  destruct (decide (ns b = 1%nat)) as [Hs1|Hs1].
  - replace (Z.of_nat (ns b) - 1 =? 0) with true by (symmetry; apply Z.eqb_eq; lia).
    set (blk1 := mkBlock (Z.of_nat (ns b) - 1) (weak_count blk) (layout blk)).
    set (h1 := mkHeap (<[b := blk1]> (blocks h)) (objects h) (allocated h)
                      (next_block h) (trace h)).
    destruct (destroy_spec h1 b blk1) as (l' & evs & objs' & Hd & Hsil & Hal & Hobj).
    { apply lookup_insert_eq. }
    { apply (payload_ok_same_objects h); [reflexivity|]. apply H5, Hn. }
    { apply HI. }
    subst h1 blk1. unfold set_layout in *. hsimpl.
    rewrite decide_False in H6 by assumption.
    destruct (decide (nw b = 0%nat)) as [Hw0|Hw0].
    + replace (weak_count blk =? 0) with true by (symmetry; apply Z.eqb_eq; lia).
      rewrite Hd. unfold deallocate. hsimpl. rewrite lookup_insert_eq.
      eexists. split; [reflexivity|]. split.
      * apply (HInv_transfer h _ ns nw (decr b ns) nw b); [exact HI|..]; hsimpl.
        -- intros b' Hne.
           rewrite lookup_delete_ne, !lookup_insert_ne by congruence. reflexivity.
        -- intros b' Hne. apply decr_other, Hne.
        -- reflexivity.
        -- tauto.
        -- intros b' Hne. rewrite life_dealloc_other by assumption.
           apply life_destroy_other; assumption.
        -- apply (payload_ok_after_destroy h _ ns nw b blk); auto.
        -- apply (plain_after_destroy h _ blk); [apply HI|exact Hobj].
        -- unfold block_inv. hsimpl. rewrite lookup_delete_eq, decr_same.
           split; [lia|]. split; [assumption|].
           rewrite life_snoc, life_destroy, H6 by assumption.
           cbn. rewrite !decide_True by (reflexivity || assumption). reflexivity.
        -- intros blk' a b2 blk2. rewrite lookup_delete_eq. discriminate.
      * split; [|reflexivity]. hsimpl. eexists. rewrite <- app_assoc. reflexivity.
    + replace (weak_count blk =? 0) with false by (symmetry; apply Z.eqb_neq; lia).
      rewrite Hd.
      eexists. split; [reflexivity|]. split.
      * apply (HInv_transfer h _ ns nw (decr b ns) nw b); [exact HI|..]; hsimpl.
        -- intros b' Hne. rewrite !lookup_insert_ne by congruence. reflexivity.
        -- intros b' Hne. apply decr_other, Hne.
        -- reflexivity.
        -- tauto.
        -- intros b' Hne. apply life_destroy_other; assumption.
        -- apply (payload_ok_after_destroy h _ ns nw b blk); auto.
        -- apply (plain_after_destroy h _ blk); [apply HI|exact Hobj].
        -- unfold block_inv. hsimpl. rewrite insert_insert_eq, lookup_insert_eq, decr_same.
           hsimpl. split; [lia|]. split; [assumption|]. split; [lia|]. split; [lia|].
           split; [assumption|]. split; [intros Hx; lia|].
           rewrite life_destroy, H6 by assumption.
           cbn. rewrite decide_True by reflexivity.
           rewrite decide_True by lia. reflexivity.
        -- intros blk' a b2 blk2. rewrite insert_insert_eq, lookup_insert_eq.
           intros [= <-] [Hc _]. hsimpl. lia.
      * split; [|reflexivity]. hsimpl. eexists. reflexivity.
  - replace (Z.of_nat (ns b) - 1 =? 0) with false by (symmetry; apply Z.eqb_neq; lia).
    eexists. split; [reflexivity|]. split.
    + apply (HInv_set_counts h ns nw); auto.
      * intros b' Hne. apply decr_other, Hne.
      * rewrite decr_same. lia.
      * rewrite decr_same. lia.
      * rewrite decr_same. lia.
      * rewrite decr_same. lia.
    + apply extends_same; reflexivity.
Qed.
Lemma HInv_next_block_free (h : Heap) (ns nw : block_id -> nat) :
  HInv h ns nw ->
  blocks h !! next_block h = None /\ ns (next_block h) = 0%nat /\
  nw (next_block h) = 0%nat /\ life (next_block h) (trace h) = Unborn.
Proof.
  intros HI. destruct (blocks h !! next_block h) as [blk|] eqn:E.
  - destruct (HInv_block _ _ _ _ _ HI E) as (_ & _ & _ & _ & H4 & _). lia.
  - destruct (HInv_dead _ _ _ _ HI E) as (H1 & H2 & H3).
    rewrite decide_False in H3 by lia. auto.
Qed.

Lemma life_allocate_other (b b' : block_id) (tr evs : list Event) :
  b' <> b -> Forall silent evs -> life b' (tr ++ EvAllocate b :: evs) = life b' tr.
Proof.
  intros Hne Hs. change (EvAllocate b :: evs) with ([EvAllocate b] ++ evs).
  rewrite app_assoc, life_app_silent, life_snoc by assumption.
  apply life_step_other with (b' := b); eauto.
Qed.

Lemma life_allocate (b : block_id) (tr evs : list Event) :
  Forall silent evs ->
  life b (tr ++ EvAllocate b :: evs) = life_step b (life b tr) (EvAllocate b).
Proof.
  intros Hs. change (EvAllocate b :: evs) with ([EvAllocate b] ++ evs).
  rewrite app_assoc, life_app_silent, life_snoc by assumption. reflexivity.
Qed.

(** A new block with one strong handle. *)
Lemma HInv_new_block (h : Heap) (ns nw : block_id -> nat) (lay : Layout)
    (evs : list Event) :
  HInv h ns nw ->
  Forall silent evs ->
  payload_ok h (mkBlock 1 0 lay) ->
  (forall a al, lay = RegularControlBlock (object_at a) default_delete al ->
     forall b2 blk2, blocks h !! b2 = Some blk2 -> owns blk2 a -> False) ->
  HInv (mkHeap (<[next_block h := mkBlock 1 0 lay]> (blocks h)) (objects h)
               ({[ next_block h ]} ∪ allocated h) (Pos.succ (next_block h))
               (trace h ++ EvAllocate (next_block h) :: evs))
       (incr (next_block h) ns) nw.
Proof.
  intros HI Hsil Hok Hfresh.
  destruct (HInv_next_block_free h ns nw HI) as (E & Hs0 & Hw0 & Hl).
  apply (HInv_transfer h _ ns nw _ nw (next_block h)); [exact HI|..]; hsimpl.
  - intros b' Hne. apply lookup_insert_ne. congruence.
  - intros b' Hne. apply incr_other, Hne.
  - reflexivity.
  - intros b' Hne. lia.
  - intros b' Hne. apply life_allocate_other; assumption.
  - intros b' blk' _ _ _ H. exact H.
  - apply HI.
  - unfold block_inv. hsimpl. rewrite lookup_insert_eq, incr_same, Hs0, Hw0. hsimpl.
    split; [reflexivity|]. split; [reflexivity|]. split; [lia|].
    split; [unfold UINT_MAX, uint_modulus, uint_bits; lia|]. split; [lia|].
    split; [intros _; exact Hok|].
    rewrite life_allocate, Hl by assumption. cbn.
    rewrite decide_True by reflexivity. reflexivity.
  - intros blk a b2 blk2. rewrite lookup_insert_eq. intros [= <-] [_ [al O]] _ E2 O2.
    hsimpl. eapply Hfresh; eauto.
Qed.

Lemma HInv_new_object (h : Heap) (ns nw : block_id -> nat) (o : Object) :
  HInv h ns nw -> enable_wp o = None ->
  HInv (mkHeap (blocks h) (<[fresh (dom (objects h)) := o]> (objects h))
               (allocated h) (next_block h) (trace h)) ns nw.
Proof.
  intros HI Ho.
  assert (Hfresh : objects h !! fresh (dom (objects h)) = None).
  { apply not_elem_of_dom. apply is_fresh. }
  destruct HI as (Hb & Hp & Hu). split; [|split].
  - intros b. apply (block_inv_frame h _ ns nw); auto; hsimpl; try tauto.
    intros blk E Hn. unfold payload_ok. hsimpl.
    destruct (layout blk) as [[|a|?] [|?] ?|]; auto.
    intros [o' Ho']. rewrite lookup_insert_ne by congruence. eauto.
  - intros a o'. hsimpl. intros H. apply lookup_insert_Some in H as [[_ <-]|[_ H]].
    + exact Ho.
    + apply (Hp a o' H).
  - exact Hu.
Qed.
(** ** The same, for handles that may be empty *)

Lemma unit_incr (b : block_id) (n : block_id -> nat) (b' : block_id) :
  (unit_of (Some b) b' + n b')%nat = incr b n b'.
Proof.
  unfold unit_of, incr.
  destruct (decide (Some b = Some b')) as [[= ->]|Hne].
  - rewrite decide_True; reflexivity.
  - rewrite decide_False; [reflexivity|congruence].
Qed.

Lemma decr_unit (b : block_id) (n : block_id -> nat) (b' : block_id) :
  decr b (fun c => (unit_of (Some b) c + n c)%nat) b' = n b'.
Proof.
  unfold unit_of, decr.
  destruct (decide (b' = b)) as [->|Hne].
  - rewrite decide_True; reflexivity.
  - rewrite decide_False; [reflexivity|congruence].
Qed.

Lemma copy_handle_inv (h : Heap) (ns nw : block_id -> nat) (x : SharedPtr) :
  HInv h ns nw ->
  (forall b, sp_cb x = Some b -> ns b <> 0%nat /\ Z.of_nat (ns b) < UINT_MAX) ->
  exists h',
    SharedPtr_copy x h = Some (mkSharedPtr (sp_ptr x) (sp_cb x), h') /\
    HInv h' (fun b => (unit_of (sp_cb x) b + ns b)%nat) nw /\ extends h h'.
Proof.
  intros HI Hx. destruct x as [p [b|]]; hsimpl.
  - destruct (Hx b eq_refl) as [Hn Hb].
    destruct (SharedPtr_copy_inv h ns nw p b HI Hn Hb) as (h' & Hc & HI' & He).
    exists h'. split; [exact Hc|]. split; [|exact He].
    apply (HInv_ext h' (incr b ns) nw); auto. intros b'. apply unit_incr.
  - exists h. split; [reflexivity|]. split; [exact HI|apply extends_refl].
Qed.

Lemma from_weak_handle_inv (h : Heap) (ns nw : block_id -> nat) (w : WeakPtr) :
  HInv h ns nw ->
  (forall b, wp_cb w = Some b -> ns b <> 0%nat /\ Z.of_nat (ns b) < UINT_MAX) ->
  exists h',
    SharedPtr_from_weak w h = Some (mkSharedPtr (wp_ptr w) (wp_cb w), h') /\
    HInv h' (fun b => (unit_of (wp_cb w) b + ns b)%nat) nw /\ extends h h'.
Proof.
  intros HI Hx. destruct w as [p [b|]]; hsimpl.
  - destruct (Hx b eq_refl) as [Hn Hb].
    destruct (SharedPtr_from_weak_inv h ns nw p b HI Hn Hb) as (h' & Hc & HI' & He).
    exists h'. split; [exact Hc|]. split; [|exact He].
    apply (HInv_ext h' (incr b ns) nw); auto. intros b'. apply unit_incr.
  - exists h. split; [reflexivity|]. split; [exact HI|apply extends_refl].
Qed.

Lemma dtor_handle_inv (h : Heap) (ns nw : block_id -> nat) (x : SharedPtr) :
  HInv h (fun b => (unit_of (sp_cb x) b + ns b)%nat) nw ->
  exists h',
    SharedPtr_dtor x h = Some (tt, h') /\ HInv h' ns nw /\ extends h h'.
Proof.
  intros HI. destruct x as [p [b|]]; hsimpl.
  - destruct (SharedPtr_dtor_inv h _ nw p b HI) as (h' & Hc & HI' & He).
    { rewrite unit_of_same. lia. }
    exists h'. split; [exact Hc|]. split; [|exact He].
    eapply HInv_ext; [| |exact HI']; [|reflexivity].
    intros b'. symmetry. apply decr_unit.
  - exists h. split; [reflexivity|]. split; [|apply extends_refl].
    eapply HInv_ext; [| |exact HI]; reflexivity.
Qed.

Lemma weak_copy_handle_inv (h : Heap) (ns nw : block_id -> nat) (w : WeakPtr) :
  HInv h ns nw ->
  (forall b, wp_cb w = Some b -> (ns b + nw b <> 0)%nat /\ Z.of_nat (nw b) < UINT_MAX) ->
  exists h',
    WeakPtr_copy w h = Some (mkWeakPtr (wp_ptr w) (wp_cb w), h') /\
    HInv h' ns (fun b => (unit_of (wp_cb w) b + nw b)%nat) /\ extends h h'.
Proof.
  intros HI Hx. destruct w as [p [b|]]; hsimpl.
  - destruct (Hx b eq_refl) as [Hn Hb].
    destruct (WeakPtr_copy_inv h ns nw p b HI Hn Hb) as (h' & Hc & HI' & He).
    exists h'. split; [exact Hc|]. split; [|exact He].
    apply (HInv_ext h' ns (incr b nw)); auto. intros b'. apply unit_incr.
  - exists h. split; [reflexivity|]. split; [exact HI|apply extends_refl].
Qed.

Lemma weak_dtor_handle_inv (h : Heap) (ns nw : block_id -> nat) (w : WeakPtr) :
  HInv h ns (fun b => (unit_of (wp_cb w) b + nw b)%nat) ->
  exists h',
    WeakPtr_dtor w h = Some (tt, h') /\ HInv h' ns nw /\ extends h h'.
Proof.
  intros HI. destruct w as [p [b|]]; hsimpl.
  - destruct (WeakPtr_dtor_inv h ns _ p b HI) as (h' & Hc & HI' & He).
    { rewrite unit_of_same. lia. }
    exists h'. split; [exact Hc|]. split; [|exact He].
    eapply HInv_ext; [| |exact HI']; [reflexivity|].
    intros b'. symmetry. apply decr_unit.
  - exists h. split; [reflexivity|]. split; [|apply extends_refl].
    eapply HInv_ext; [| |exact HI]; reflexivity.
Qed.

(** ** Statements preserve the invariant *)

Lemma Inv_intro (h : Heap) (S : list SharedPtr) (W : list WeakPtr)
    (ns nw : block_id -> nat) :
  HInv h ns nw ->
  (forall b, strong_refs b S = ns b) -> (forall b, weak_refs b W = nw b) ->
  Inv (mkSys h S W).
Proof. intros HI Hs Hw. unfold Inv. hsimpl. eapply HInv_ext; [exact Hs|exact Hw|exact HI]. Qed.

Lemma Inv_elim (s : Sys) (ns nw : block_id -> nat) :
  Inv s ->
  (forall b, ns b = strong_refs b (strongs s)) ->
  (forall b, nw b = weak_refs b (weaks s)) ->
  HInv (heap s) ns nw.
Proof. intros HI Hs Hw. eapply HInv_ext; [exact Hs|exact Hw|exact HI]. Qed.

Lemma strong_refs_bounds (s : Sys) (i : nat) (x : SharedPtr) (b : block_id) :
  strongs s !! i = Some x -> sp_cb x = Some b ->
  Z.of_nat (handles s) < UINT_MAX ->
  strong_refs b (strongs s) <> 0%nat /\
  Z.of_nat (strong_refs b (strongs s)) < UINT_MAX.
Proof.
  intros Hi Hb Hlt. unfold strong_refs, handles in *.
  pose proof (refs_unit_le sp_cb b (strongs s) x (list_elem_of_lookup_2 _ _ _ Hi)) as H1.
  rewrite Hb, unit_of_same in H1.
  pose proof (refs_le_length sp_cb b (strongs s)). lia.
Qed.

Lemma weak_refs_bounds (s : Sys) (j : nat) (w : WeakPtr) (b : block_id) :
  weaks s !! j = Some w -> wp_cb w = Some b ->
  Z.of_nat (handles s) < UINT_MAX ->
  weak_refs b (weaks s) <> 0%nat /\
  Z.of_nat (weak_refs b (weaks s)) < UINT_MAX.
Proof.
  intros Hi Hb Hlt. unfold weak_refs, handles in *.
  pose proof (refs_unit_le wp_cb b (weaks s) w (list_elem_of_lookup_2 _ _ _ Hi)) as H1.
  rewrite Hb, unit_of_same in H1.
  pose proof (refs_le_length wp_cb b (weaks s)). lia.
Qed.

Lemma weak_refs_le_handles (s : Sys) (b : block_id) :
  (weak_refs b (weaks s) <= handles s)%nat.
Proof.
  unfold weak_refs, handles. pose proof (refs_le_length wp_cb b (weaks s)). lia.
Qed.

Lemma step_none_ok (s : Sys) :
  Inv s ->
  exists s', Some s = Some s' /\ Inv s' /\ extends (heap s) (heap s') /\
             (handles s' <= S (handles s))%nat.
Proof.
  intros HI. exists s. split; [reflexivity|]. split; [exact HI|].
  split; [apply extends_refl|lia].
Qed.

Lemma OpCopy_ok (i : nat) : step_ok (OpCopy i).
Proof.
  intros s HI Hlt. cbn [step].
  destruct (strongs s !! i) as [x|] eqn:Hi; [|apply step_none_ok, HI].
  destruct (copy_handle_inv (heap s) _ _ x HI) as (h' & Hc & HI' & He).
  { intros b Hb. exact (strong_refs_bounds s i x b Hi Hb Hlt). }
  unfold on_heap. rewrite Hc. eexists. split; [reflexivity|]. hsimpl.
  split; [|split; [exact He|]].
  - eapply Inv_intro; [exact HI'| |reflexivity].
    intros b. unfold strong_refs. rewrite refs_snoc. hsimpl. lia.
  - unfold handles. hsimpl. rewrite length_app. cbn. lia.
Qed.
Lemma OpMove_ok (i : nat) : step_ok (OpMove i).
Proof.
  intros s HI Hlt. cbn [step].
  destruct (strongs s !! i) as [x|] eqn:Hi; [|apply step_none_ok, HI].
  unfold SharedPtr_move. eexists. split; [reflexivity|]. hsimpl.
  split; [|split; [apply extends_refl|]].
  - eapply Inv_intro; [exact HI| |reflexivity].
    intros b. unfold strong_refs. rewrite refs_snoc. hsimpl.
    pose proof (refs_insert sp_cb b (strongs s) i x (mkSharedPtr nullptr None) Hi) as H.
    hsimpl. rewrite unit_of_None in H. lia.
  - unfold handles. hsimpl. rewrite length_app, length_insert. cbn. lia.
Qed.

Lemma OpRelease_ok (i : nat) : step_ok (OpRelease i).
Proof.
  intros s HI Hlt. cbn [step].
  destruct (strongs s !! i) as [x|] eqn:Hi; [|apply step_none_ok, HI].
  destruct (dtor_handle_inv (heap s) (fun b => strong_refs b (delete i (strongs s)))
              (fun b => weak_refs b (weaks s)) x) as (h' & Hc & HI' & He).
  { apply (Inv_elim s); [exact HI| |reflexivity].
    intros b. unfold strong_refs. rewrite (refs_delete sp_cb b _ i x Hi). lia. }
  unfold on_heap. rewrite Hc. eexists. split; [reflexivity|]. hsimpl.
  split; [exact HI'|]. split; [exact He|].
  unfold handles. hsimpl. rewrite length_delete by eauto. lia.
Qed.

Lemma OpReset_ok (i : nat) : step_ok (OpReset i).
Proof.
  intros s HI Hlt. cbn [step].
  destruct (strongs s !! i) as [x|] eqn:Hi; [|apply step_none_ok, HI].
  unfold SharedPtr_reset, SharedPtr_swap.
  destruct (dtor_handle_inv (heap s)
              (fun b => strong_refs b (<[i := SharedPtr_default]> (strongs s)))
              (fun b => weak_refs b (weaks s)) x) as (h' & Hc & HI' & He).
  { apply (Inv_elim s); [exact HI| |reflexivity].
    intros b. unfold strong_refs.
    pose proof (refs_insert sp_cb b (strongs s) i x SharedPtr_default Hi) as H.
    unfold SharedPtr_default in *. hsimpl. rewrite unit_of_None in H. lia. }
  unfold on_heap. rewrite (bind_Some _ _ _ _ _ Hc). cbn [ret].
  eexists. split; [reflexivity|]. hsimpl.
  split; [exact HI'|]. split; [exact He|].
  unfold handles. hsimpl. rewrite length_insert. lia.
Qed.

Lemma OpAssign_ok (i j : nat) : step_ok (OpAssign i j).
Proof.
  intros s HI Hlt. cbn [step].
  destruct (strongs s !! i) as [x|] eqn:Hi; [|apply step_none_ok, HI].
  destruct (strongs s !! j) as [y|] eqn:Hj; [|apply step_none_ok, HI].
  unfold SharedPtr_assign, SharedPtr_swap. destruct (bool_decide (i = j)) eqn:Hij.
  - unfold on_heap. cbn [ret]. eexists. split; [reflexivity|]. hsimpl.
    rewrite list_insert_id by assumption. split; [exact HI|].
    split; [apply extends_refl|]. unfold handles. hsimpl. lia.
  - destruct (copy_handle_inv (heap s) _ _ y HI) as (h1 & Hc & HI1 & He1).
    { intros b Hb. exact (strong_refs_bounds s j y b Hj Hb Hlt). }
    set (y' := mkSharedPtr (sp_ptr y) (sp_cb y)) in *.
    destruct (dtor_handle_inv h1 (fun b => strong_refs b (<[i := y']> (strongs s)))
                (fun b => weak_refs b (weaks s)) x) as (h2 & Hd & HI2 & He2).
    { eapply HInv_ext; [| |exact HI1]; [|reflexivity].
      intros b. unfold strong_refs.
      pose proof (refs_insert sp_cb b (strongs s) i x y' Hi) as H.
      unfold y' in *. hsimpl. lia. }
    unfold on_heap. rewrite (bind_Some _ _ _ _ _ Hc). cbv beta iota.
    rewrite (bind_Some _ _ _ _ _ Hd). cbn [ret].
    eexists. split; [reflexivity|]. hsimpl.
    split; [exact HI2|]. split; [exact (extends_trans _ _ _ He1 He2)|].
    unfold handles. hsimpl. rewrite length_insert. lia.
Qed.

Lemma OpMoveAssign_ok (i j : nat) : step_ok (OpMoveAssign i j).
Proof.
  intros s HI Hlt. cbn [step].
  destruct (strongs s !! i) as [x|] eqn:Hi; [|apply step_none_ok, HI].
  destruct (strongs s !! j) as [y|] eqn:Hj; [|apply step_none_ok, HI].
  unfold SharedPtr_move_assign, SharedPtr_move, SharedPtr_swap.
  destruct (bool_decide (i = j)) eqn:Hij.
  - apply bool_decide_eq_true in Hij. subst j.
    assert (y = x) as -> by congruence.
    unfold on_heap, SharedPtr_dtor. hsimpl. run_monad.
    eexists. split; [reflexivity|]. hsimpl.
    rewrite list_insert_insert_eq.
    replace (mkSharedPtr (sp_ptr x) (sp_cb x)) with x by (destruct x; reflexivity).
    rewrite list_insert_id by assumption. split; [exact HI|].
    split; [apply extends_refl|]. unfold handles. hsimpl. lia.
  - apply bool_decide_eq_false in Hij.
    set (y' := mkSharedPtr (sp_ptr y) (sp_cb y)) in *.
    set (e := mkSharedPtr nullptr None) in *.
    destruct (dtor_handle_inv (heap s)
                (fun b => strong_refs b (<[i := y']> (<[j := e]> (strongs s))))
                (fun b => weak_refs b (weaks s)) x) as (h2 & Hd & HI2 & He2).
    { apply (Inv_elim s); [exact HI| |reflexivity].
      intros b. unfold strong_refs.
      pose proof (refs_insert sp_cb b (strongs s) j y e Hj) as H1.
      assert (Hi' : <[j := e]> (strongs s) !! i = Some x).
      { rewrite list_lookup_insert_ne by congruence. exact Hi. }
      pose proof (refs_insert sp_cb b _ i x y' Hi') as H2.
      unfold y', e in *. hsimpl. rewrite unit_of_None in H1. lia. }
    unfold on_heap. rewrite (bind_Some _ _ _ _ _ Hd). cbn [ret].
    eexists. split; [reflexivity|]. hsimpl.
    split; [exact HI2|]. split; [exact He2|].
    unfold handles. hsimpl. rewrite !length_insert. lia.
Qed.
Lemma OpWeakCopy_ok (j : nat) : step_ok (OpWeakCopy j).
Proof.
  intros s HI Hlt. cbn [step].
  destruct (weaks s !! j) as [w|] eqn:Hj; [|apply step_none_ok, HI].
  destruct (weak_copy_handle_inv (heap s) _ _ w HI) as (h' & Hc & HI' & He).
  { intros b Hb. destruct (weak_refs_bounds s j w b Hj Hb Hlt). split; [lia|assumption]. }
  unfold on_heap. rewrite Hc. eexists. split; [reflexivity|]. hsimpl.
  split; [|split; [exact He|]].
  - eapply Inv_intro; [exact HI'|reflexivity|].
    intros b. unfold weak_refs. rewrite refs_snoc. hsimpl. lia.
  - unfold handles. hsimpl. rewrite length_app. cbn. lia.
Qed.

Lemma OpWeakMove_ok (j : nat) : step_ok (OpWeakMove j).
Proof.
  intros s HI Hlt. cbn [step].
  destruct (weaks s !! j) as [w|] eqn:Hj; [|apply step_none_ok, HI].
  unfold WeakPtr_move. eexists. split; [reflexivity|]. hsimpl.
  split; [|split; [apply extends_refl|]].
  - eapply Inv_intro; [exact HI|reflexivity|].
    intros b. unfold weak_refs. rewrite refs_snoc. hsimpl.
    pose proof (refs_insert wp_cb b (weaks s) j w (mkWeakPtr nullptr None) Hj) as H.
    hsimpl. rewrite unit_of_None in H. lia.
  - unfold handles. hsimpl. rewrite length_app, length_insert. cbn. lia.
Qed.

Lemma OpWeakRelease_ok (j : nat) : step_ok (OpWeakRelease j).
Proof.
  intros s HI Hlt. cbn [step].
  destruct (weaks s !! j) as [w|] eqn:Hj; [|apply step_none_ok, HI].
  destruct (weak_dtor_handle_inv (heap s) (fun b => strong_refs b (strongs s))
              (fun b => weak_refs b (delete j (weaks s))) w) as (h' & Hc & HI' & He).
  { apply (Inv_elim s); [exact HI|reflexivity|].
    intros b. unfold weak_refs. rewrite (refs_delete wp_cb b _ j w Hj). lia. }
  unfold on_heap. rewrite Hc. eexists. split; [reflexivity|]. hsimpl.
  split; [exact HI'|]. split; [exact He|].
  unfold handles. hsimpl. rewrite length_delete by eauto. lia.
Qed.

Lemma OpWeakAssign_ok (i j : nat) : step_ok (OpWeakAssign i j).
Proof.
  intros s HI Hlt. cbn [step].
  destruct (weaks s !! i) as [x|] eqn:Hi; [|apply step_none_ok, HI].
  destruct (weaks s !! j) as [y|] eqn:Hj; [|apply step_none_ok, HI].
  unfold WeakPtr_assign, WeakPtr_swap.
  destruct (weak_copy_handle_inv (heap s) _ _ y HI) as (h1 & Hc & HI1 & He1).
  { intros b Hb. destruct (weak_refs_bounds s j y b Hj Hb Hlt). split; [lia|assumption]. }
  set (y' := mkWeakPtr (wp_ptr y) (wp_cb y)) in *.
  destruct (weak_dtor_handle_inv h1 (fun b => strong_refs b (strongs s))
              (fun b => weak_refs b (<[i := y']> (weaks s))) x) as (h2 & Hd & HI2 & He2).
  { eapply HInv_ext; [| |exact HI1]; [reflexivity|].
    intros b. unfold weak_refs.
    pose proof (refs_insert wp_cb b (weaks s) i x y' Hi) as H.
    unfold y' in *. hsimpl. lia. }
  unfold on_heap. rewrite (bind_Some _ _ _ _ _ Hc). cbv beta iota.
  rewrite (bind_Some _ _ _ _ _ Hd). cbn [ret].
  eexists. split; [reflexivity|]. hsimpl.
  split; [exact HI2|]. split; [exact (extends_trans _ _ _ He1 He2)|].
  unfold handles. hsimpl. rewrite length_insert. lia.
Qed.

Lemma OpWeakMoveAssign_ok (i j : nat) : step_ok (OpWeakMoveAssign i j).
Proof.
  intros s HI Hlt. cbn [step].
  destruct (weaks s !! i) as [x|] eqn:Hi; [|apply step_none_ok, HI].
  destruct (weaks s !! j) as [y|] eqn:Hj; [|apply step_none_ok, HI].
  unfold WeakPtr_move_assign, WeakPtr_move, WeakPtr_swap.
  destruct (bool_decide (i = j)) eqn:Hij.
  - apply bool_decide_eq_true in Hij. subst j.
    assert (y = x) as -> by congruence.
    unfold on_heap, WeakPtr_dtor. hsimpl. run_monad.
    eexists. split; [reflexivity|]. hsimpl.
    rewrite list_insert_insert_eq.
    replace (mkWeakPtr (wp_ptr x) (wp_cb x)) with x by (destruct x; reflexivity).
    rewrite list_insert_id by assumption. split; [exact HI|].
    split; [apply extends_refl|]. unfold handles. hsimpl. lia.
  - apply bool_decide_eq_false in Hij.
    set (y' := mkWeakPtr (wp_ptr y) (wp_cb y)) in *.
    set (e := mkWeakPtr nullptr None) in *.
    destruct (weak_dtor_handle_inv (heap s) (fun b => strong_refs b (strongs s))
                (fun b => weak_refs b (<[i := y']> (<[j := e]> (weaks s)))) x)
      as (h2 & Hd & HI2 & He2).
    { apply (Inv_elim s); [exact HI|reflexivity|].
      intros b. unfold weak_refs.
      pose proof (refs_insert wp_cb b (weaks s) j y e Hj) as H1.
      assert (Hi' : <[j := e]> (weaks s) !! i = Some x).
      { rewrite list_lookup_insert_ne by congruence. exact Hi. }
      pose proof (refs_insert wp_cb b _ i x y' Hi') as H2.
      unfold y', e in *. hsimpl. rewrite unit_of_None in H1. lia. }
    unfold on_heap. rewrite (bind_Some _ _ _ _ _ Hd). cbn [ret].
    eexists. split; [reflexivity|]. hsimpl.
    split; [exact HI2|]. split; [exact He2|].
    unfold handles. hsimpl. rewrite !length_insert. lia.
Qed.

Lemma OpWeak_ok (i : nat) : step_ok (OpWeak i).
Proof.
  intros s HI Hlt. cbn [step].
  destruct (strongs s !! i) as [x|] eqn:Hi; [|apply step_none_ok, HI].
  destruct (copy_handle_inv (heap s) _ _ x HI) as (h1 & Hc & HI1 & He1).
  { intros b Hb. exact (strong_refs_bounds s i x b Hi Hb Hlt). }
  set (shp := mkSharedPtr (sp_ptr x) (sp_cb x)) in *.
  destruct (weak_copy_handle_inv h1 _ _ (mkWeakPtr (sp_ptr shp) (sp_cb shp)) HI1)
    as (h2 & Hw & HI2 & He2).
  { unfold shp. hsimpl. intros b Hb.
    destruct (strong_refs_bounds s i x b Hi Hb Hlt). rewrite Hb, unit_of_same.
    pose proof (weak_refs_le_handles s b). split; lia. }
  destruct (dtor_handle_inv h2 (fun b => strong_refs b (strongs s))
              (fun b => (unit_of (sp_cb shp) b + weak_refs b (weaks s))%nat) shp)
    as (h3 & Hd & HI3 & He3).
  { exact HI2. }
  unfold on_heap, WeakPtr_from_shared. rewrite (bind_Some _ _ _ _ _ Hc).
  change (match sp_cb shp with
          | Some b => blk <~ get_block b ;;
                      put_block b (set_weak_count (uint_incr (weak_count blk)) blk) ;;;
                      ret (mkWeakPtr (sp_ptr shp) (Some b))
          | None => ret (mkWeakPtr (sp_ptr shp) None)
          end) with (WeakPtr_copy (mkWeakPtr (sp_ptr shp) (sp_cb shp))).
  rewrite (bind_Some _ _ _ _ _ Hw). rewrite (bind_Some _ _ _ _ _ Hd). cbn [ret].
  eexists. split; [reflexivity|]. hsimpl.
  split; [|split; [exact (extends_trans _ _ _ He1 (extends_trans _ _ _ He2 He3))|]].
  - eapply Inv_intro; [exact HI3|reflexivity|].
    intros b. unfold weak_refs, shp. rewrite refs_snoc. hsimpl. lia.
  - unfold handles. hsimpl. rewrite length_app. cbn. lia.
Qed.
Lemma OpLock_ok (j : nat) : step_ok (OpLock j).
Proof.
  intros s HI Hlt. cbn [step].
  destruct (weaks s !! j) as [w|] eqn:Hj; [|apply step_none_ok, HI].
  assert (Hdefault :
    exists s', Some (mkSys (heap s) (strongs s ++ [SharedPtr_default]) (weaks s)) = Some s' /\
               Inv s' /\ extends (heap s) (heap s') /\ (handles s' <= S (handles s))%nat).
  { eexists. split; [reflexivity|]. hsimpl. split; [|split; [apply extends_refl|]].
    - eapply Inv_intro; [exact HI| |reflexivity].
      intros b. unfold strong_refs. rewrite refs_snoc. unfold SharedPtr_default. hsimpl.
      rewrite unit_of_None. lia.
    - unfold handles. hsimpl. rewrite length_app. cbn. lia. }
  unfold on_heap, WeakPtr_lock, WeakPtr_expired.
  destruct (wp_cb w) as [b|] eqn:Hb.
  - destruct (weak_refs_bounds s j w b Hj Hb Hlt) as [Hw0 _].
    destruct (HInv_live _ _ _ b HI) as [blk E]; [lia|].
    destruct (HInv_block _ _ _ _ _ HI E) as (H1 & _).
    run_with E. destruct (shared_count blk =? 0) eqn:H0.
    + cbn [ret]. exact Hdefault.
    + apply Z.eqb_neq in H0.
      destruct (from_weak_handle_inv (heap s) _ _ w HI) as (h' & Hc & HI' & He).
      { intros b' Hb'. assert (b' = b) as -> by congruence. split; [lia|].
        unfold strong_refs. pose proof (refs_le_length sp_cb b (strongs s)).
        unfold handles in Hlt. lia. }
      rewrite Hc. eexists. split; [reflexivity|]. hsimpl.
      split; [|split; [exact He|]].
      * eapply Inv_intro; [exact HI'| |reflexivity].
        intros b'. unfold strong_refs. rewrite refs_snoc. hsimpl. lia.
      * unfold handles. hsimpl. rewrite length_app. cbn. lia.
  - run_monad. exact Hdefault.
Qed.

Lemma adopt_plain_deleter (p : pointer) :
  SharedPtr_adopt plain_class p = SharedPtr_adopt_deleter plain_class p default_delete.
Proof. reflexivity. Qed.

Lemma OpAdoptDeleter_ok (args : list Z) (d : Delete) : step_ok (OpAdoptDeleter args d).
Proof.
  intros s HI Hlt. cbn [step].
  pose proof (HInv_new_object (heap s) _ _ (construct_object plain_class args) HI eq_refl)
    as HI0.
  set (a := fresh (dom (objects (heap s)))) in *.
  set (h0 := mkHeap _ _ _ _ _) in HI0.
  pose proof (HInv_new_block h0 _ _
                (RegularControlBlock (object_at a) d std_allocator) [] HI0) as HI1.
  unfold on_heap, new_object, SharedPtr_adopt_deleter. run_monad. fold a.
  eexists. split; [reflexivity|]. hsimpl. split; [|split].
  - eapply Inv_intro; [apply HI1| |reflexivity].
    + constructor.
    + unfold payload_ok. hsimpl. destruct d; [|exact I]. subst h0. hsimpl.
      rewrite lookup_insert_eq. eauto.
    + intros a' al [= <- _ _] b2 blk2 E2 O2.
      destruct (HInv_block _ _ _ _ _ HI E2) as (H1 & _ & _ & _ & _ & H5 & _).
      destruct O2 as [Hc [al2 El2]].
      assert (Hok : payload_ok (heap s) blk2) by (apply H5; lia).
      unfold payload_ok in Hok. rewrite El2 in Hok.
      apply elem_of_dom in Hok. exact (is_fresh _ Hok).
    + intros b. unfold strong_refs. rewrite refs_snoc. hsimpl. rewrite <- unit_incr.
      subst h0. hsimpl. lia.
  - split; [eexists; reflexivity|]. hsimpl. lia.
  - unfold handles. hsimpl. rewrite length_app. cbn. lia.
Qed.

Lemma OpAdopt_ok (args : list Z) : step_ok (OpAdopt args).
Proof. exact (OpAdoptDeleter_ok args default_delete). Qed.
Lemma OpAdoptDeleterAlloc_ok (args : list Z) (d : Delete) (al : Alloc) :
  step_ok (OpAdoptDeleterAlloc args d al).
Proof.
  intros s HI Hlt. cbn [step].
  pose proof (HInv_new_object (heap s) _ _ (construct_object plain_class args) HI eq_refl)
    as HI0.
  set (a := fresh (dom (objects (heap s)))) in *.
  set (h0 := mkHeap _ _ _ _ _) in HI0.
  pose proof (HInv_new_block h0 _ _ (RegularControlBlock nullptr d al) [] HI0) as HI1.
  unfold on_heap, new_object, SharedPtr_adopt_deleter_alloc. run_monad. fold a.
  eexists. split; [reflexivity|]. hsimpl. split; [|split].
  - eapply Inv_intro; [apply HI1| |reflexivity].
    + constructor.
    + unfold payload_ok. hsimpl. destruct d; exact I.
    + intros a' al' [=].
    + intros b. unfold strong_refs. rewrite refs_snoc. hsimpl. rewrite <- unit_incr.
      subst h0. hsimpl. lia.
  - split; [eexists; reflexivity|]. hsimpl. lia.
  - unfold handles. hsimpl. rewrite length_app. cbn. lia.
Qed.

Lemma OpMake_ok (al : Alloc) (args : list Z) : step_ok (OpMake al args).
Proof.
  intros s HI Hlt. cbn [step].
  pose proof (HInv_new_block (heap s) _ _
                (MakeSharedControlBlock (Some (construct_object plain_class args)) al)
                [EvConstruct (next_block (heap s)) args] HI) as HI1.
  unfold on_heap, allocateShared. cbn [ctor_succeeds plain_class]. run_monad.
  rewrite <- app_assoc.
  eexists. split; [reflexivity|]. hsimpl. split; [|split].
  - eapply Inv_intro; [apply HI1| |reflexivity].
    + repeat constructor.
    + reflexivity.
    + intros a' al' [=].
    + intros b. unfold strong_refs. rewrite refs_snoc. hsimpl. rewrite <- unit_incr. lia.
  - split; [eexists; reflexivity|]. hsimpl. lia.
  - unfold handles. hsimpl. rewrite length_app. cbn. lia.
Qed.

Lemma refs_swap {A} (cb : A -> option block_id) (b : block_id) (l : list A)
    (i j : nat) (x y : A) :
  l !! i = Some x -> l !! j = Some y ->
  refs cb b (<[i := y]> (<[j := x]> l)) = refs cb b l.
Proof.
  intros Hi Hj. destruct (decide (i = j)) as [->|Hne].
  - assert (y = x) as -> by congruence.
    rewrite list_insert_insert_eq, list_insert_id by assumption. reflexivity.
  - pose proof (refs_insert cb b l j y x Hj) as H1.
    assert (Hi' : <[j := x]> l !! i = Some x).
    { rewrite list_lookup_insert_ne by congruence. exact Hi. }
    pose proof (refs_insert cb b _ i x y Hi') as H2. lia.
Qed.

Lemma OpSwap_ok (i j : nat) : step_ok (OpSwap i j).
Proof.
  intros s HI Hlt. cbn [step].
  destruct (strongs s !! i) as [x|] eqn:Hi; [|apply step_none_ok, HI].
  destruct (strongs s !! j) as [y|] eqn:Hj; [|apply step_none_ok, HI].
  unfold SharedPtr_swap. eexists. split; [reflexivity|]. hsimpl.
  split; [|split; [apply extends_refl|]].
  - eapply Inv_intro; [exact HI| |reflexivity].
    intros b. unfold strong_refs. apply refs_swap; assumption.
  - unfold handles. hsimpl. rewrite !length_insert. lia.
Qed.

Lemma OpWeakSwap_ok (i j : nat) : step_ok (OpWeakSwap i j).
Proof.
  intros s HI Hlt. cbn [step].
  destruct (weaks s !! i) as [x|] eqn:Hi; [|apply step_none_ok, HI].
  destruct (weaks s !! j) as [y|] eqn:Hj; [|apply step_none_ok, HI].
  unfold WeakPtr_swap. eexists. split; [reflexivity|]. hsimpl.
  split; [|split; [apply extends_refl|]].
  - eapply Inv_intro; [exact HI|reflexivity|].
    intros b. unfold weak_refs. apply refs_swap; assumption.
  - unfold handles. hsimpl. rewrite !length_insert. lia.
Qed.

Lemma OpResetPtr_ok (i : nat) (args : list Z) : step_ok (OpResetPtr i args).
Proof.
  intros s HI Hlt. cbn [step].
  destruct (strongs s !! i) as [x|] eqn:Hi; [|apply step_none_ok, HI].
  pose proof (HInv_new_object (heap s) _ _ (construct_object plain_class args) HI eq_refl)
    as HI0.
  set (a := fresh (dom (objects (heap s)))) in *.
  set (h0 := mkHeap _ _ _ _ _) in HI0.
  assert (HI1 := HInv_new_block h0 _ _
                   (RegularControlBlock (object_at a) default_delete std_allocator)
                   [] HI0).
  set (b := next_block h0) in *.
  set (h1 := mkHeap _ _ _ _ _) in HI1.
  set (new := mkSharedPtr (object_at a) (Some b)).
  destruct (dtor_handle_inv h1 (fun c => strong_refs c (<[i := new]> (strongs s)))
              (fun c => weak_refs c (weaks s)) x) as (h2 & Hd & HI2 & He2).
  { eapply HInv_ext; [| |apply HI1]; [|reflexivity| | |].
    - intros c. rewrite <- unit_incr. unfold strong_refs.
      pose proof (refs_insert sp_cb c (strongs s) i x new Hi) as H.
      unfold new in *. hsimpl. lia.
    - constructor.
    - unfold payload_ok. hsimpl. subst h0. hsimpl. rewrite lookup_insert_eq. eauto.
    - intros a' al [= <- _] b2 blk2 E2 O2. subst h0. hsimpl.
      destruct (HInv_block _ _ _ _ _ HI E2) as (H1 & _ & _ & _ & _ & H5 & _).
      destruct O2 as [Hc [al2 El2]].
      assert (Hok : payload_ok (heap s) blk2) by (apply H5; lia).
      unfold payload_ok in Hok. rewrite El2 in Hok.
      apply elem_of_dom in Hok. exact (is_fresh _ Hok). }
  unfold on_heap, new_object, SharedPtr_reset_ptr, SharedPtr_adopt, SharedPtr_swap.
  run_monad. change (derives_esft plain_class) with false. run_monad.
  match goal with |- context [SharedPtr_dtor x ?h] => change h with h1 end.
  rewrite Hd. cbn [ret].
  eexists. split; [reflexivity|]. hsimpl.
  split; [exact HI2|]. split.
  - eapply extends_trans; [|exact He2]. subst h1 h0 b. hsimpl.
    split; [eexists; reflexivity|]. hsimpl. lia.
  - unfold handles. hsimpl. rewrite length_insert. lia.
Qed.

(** Every statement is safe. *)
Lemma step_inv (op : Op) : step_ok op.
Proof.
  destruct op.
  - apply OpAdopt_ok.
  - apply OpAdoptDeleter_ok.
  - apply OpAdoptDeleterAlloc_ok.
  - apply OpMake_ok.
  - apply OpCopy_ok.
  - apply OpMove_ok.
  - apply OpAssign_ok.
  - apply OpMoveAssign_ok.
  - apply OpReset_ok.
  - apply OpResetPtr_ok.
  - apply OpSwap_ok.
  - apply OpRelease_ok.
  - apply OpWeak_ok.
  - apply OpWeakCopy_ok.
  - apply OpWeakMove_ok.
  - apply OpWeakAssign_ok.
  - apply OpWeakMoveAssign_ok.
  - apply OpWeakSwap_ok.
  - apply OpWeakRelease_ok.
  - apply OpLock_ok.
Qed.

Lemma Inv_init : Inv init_sys.
Proof.
  split; [|split].
  - intros b. unfold block_inv. cbn. rewrite lookup_empty.
    repeat split. rewrite decide_False by lia. reflexivity.
  - intros a o. cbn. rewrite lookup_empty. discriminate.
  - intros b b' blk blk' a. cbn. rewrite lookup_empty. discriminate.
Qed.

(** A program that starts with room for all the handles it may create runs
    to the end and keeps the invariant. *)
Lemma run_inv (ops : list Op) (s : Sys) :
  Inv s -> Z.of_nat (handles s + length ops) <= UINT_MAX ->
  exists s', run ops s = Some s' /\ Inv s' /\ extends (heap s) (heap s') /\
             (handles s' <= handles s + length ops)%nat.
Proof.
  revert s. induction ops as [|op ops IH]; intros s HI Hlt.
  - exists s. split; [reflexivity|]. split; [exact HI|].
    split; [apply extends_refl|lia].
  - cbn [length] in Hlt.
    destruct (step_inv op s HI) as (s1 & Hs & HI1 & He1 & Hl1); [lia|].
    destruct (IH s1 HI1) as (s2 & Hr & HI2 & He2 & Hl2); [lia|].
    exists s2. cbn [run]. rewrite Hs. split; [exact Hr|]. split; [exact HI2|].
    split; [exact (extends_trans _ _ _ He1 He2)|]. cbn [length]. lia.
Qed.

(** ** What the life of a block says about its events *)


Lemma is_destroy_true (b : block_id) (e : Event) :
  is_destroy b e = true <-> e = EvDestroy b.
Proof.
  destruct e; cbn; try (split; [discriminate|discriminate]).
  rewrite bool_decide_eq_true. split; congruence.
Qed.







(** ** The two-phase release *)



Lemma count_events_app (p : Event -> bool) (t1 t2 : list Event) :
  count_events p (t1 ++ t2) = (count_events p t1 + count_events p t2)%nat.
Proof. unfold count_events. rewrite List.filter_app, length_app. reflexivity. Qed.


(** ** Programs within the capacity of the counters *)

Lemma run_app (ops1 ops2 : list Op) (s : Sys) :
  run (ops1 ++ ops2) s =
    match run ops1 s with
    | Some s1 => run ops2 s1
    | None => None
    end.
Proof.
  revert s. induction ops1 as [|op ops1 IH]; intros s; [reflexivity|].
  cbn [app run]. destruct (step op s); [apply IH|reflexivity].
Qed.

Lemma within_capacity_here (ops : list Op) (s : Sys) :
  within_capacity ops s -> Z.of_nat (handles s) < UINT_MAX.
Proof. intros H. apply (H 0%nat s). reflexivity. Qed.

Lemma within_capacity_cons (op : Op) (ops : list Op) (s s1 : Sys) :
  within_capacity (op :: ops) s -> step op s = Some s1 -> within_capacity ops s1.
Proof.
  intros H Hs k s' Hr. apply (H (S k) s'). cbn [take run]. rewrite Hs. exact Hr.
Qed.



Lemma run_inv_capacity (ops : list Op) (s : Sys) :
  Inv s -> within_capacity ops s ->
  exists s', run ops s = Some s' /\ Inv s' /\ extends (heap s) (heap s') /\
             Z.of_nat (handles s') < UINT_MAX.
Proof.
  revert s. induction ops as [|op ops IH]; intros s HI Hcap.
  - exists s. split; [reflexivity|]. split; [exact HI|].
    split; [apply extends_refl|]. exact (within_capacity_here _ _ Hcap).
  - destruct (step_inv op s HI (within_capacity_here _ _ Hcap))
      as (s1 & Hs & HI1 & He1 & _).
    destruct (IH s1 HI1 (within_capacity_cons op ops s s1 Hcap Hs))
      as (s2 & Hr & HI2 & He2 & Hl2).
    exists s2. cbn [run]. rewrite Hs. split; [exact Hr|]. split; [exact HI2|].
    split; [exact (extends_trans _ _ _ He1 He2)|exact Hl2].
Qed.

(** Short programs are within capacity. *)
Lemma short_within_capacity (ops : list Op) :
  Z.of_nat (length ops) < UINT_MAX -> within_capacity ops init_sys.
Proof.
  intros Hlt k s' Hr.
  destruct (run_inv (take k ops) init_sys Inv_init) as (s'' & Hr' & _ & _ & Hl).
  - cbn. rewrite length_take. lia.
  - rewrite Hr in Hr'. injection Hr' as <-. cbn in Hl. rewrite length_take in Hl. lia.
Qed.

Lemma reachable (ops : list Op) :
  within_capacity ops init_sys ->
  exists s, run ops init_sys = Some s /\ Inv s /\ Z.of_nat (handles s) < UINT_MAX.
Proof.
  intros Hcap.
  destruct (run_inv_capacity ops init_sys Inv_init Hcap) as (s & Hr & HI & _ & Hl).
  exists s. auto.
Qed.

(** ** The calls of [destroy()] and [deallocate()] *)

(** ** [use_count()] counts the live strong handles *)




(** ** Expiry *)

Lemma weak_handle_live (s : Sys) (w : WeakPtr) (b : block_id) :
  Inv s -> w ∈ weaks s -> wp_cb w = Some b ->
  exists blk, blocks (heap s) !! b = Some blk /\
              shared_count blk = Z.of_nat (strong_refs b (strongs s)) /\
              (b < next_block (heap s))%positive.
Proof.
  intros HI Hw Hb.
  pose proof (refs_unit_le wp_cb b (weaks s) w Hw) as Hle.
  rewrite Hb, unit_of_same in Hle.
  destruct (HInv_live _ _ _ b HI) as [blk E]; [unfold weak_refs; lia|].
  destruct (HInv_block _ _ _ _ _ HI E) as (H1 & _ & _ & _ & H4 & _).
  eauto.
Qed.





(** ** Promotion *)

(** C3, with the bound it needs.  Along every program that stays within
    the capacity of the counters (no state it passes through holds
    [UINT_MAX] or more handles), in every state it reaches and for every
    live weak handle
    [w]: [w.lock()] returns an empty strong handle ([use_count() == 0],
    [get() == nullptr]) iff [w.expired()] is true at the call; when [w] is
    expired the handle is the default-constructed one and memory is
    unchanged; otherwise the handle shares [w]'s block and payload pointer
    and its [use_count()] is one greater than the block's strong count
    before the call. *)
Theorem lock_spec (ops : list Op) :
  within_capacity ops init_sys ->
  exists s,
    run ops init_sys = Some s /\
    forall w, w ∈ weaks s ->
      exists e n0 x h' n,
        WeakPtr_expired w (heap s) = Some (e, heap s) /\
        WeakPtr_use_count w (heap s) = Some (n0, heap s) /\
        WeakPtr_lock w (heap s) = Some (x, h') /\
        SharedPtr_use_count x h' = Some (n, h') /\
        (e = true <-> n = 0 /\ SharedPtr_get x = nullptr) /\
        (e = true -> x = SharedPtr_default /\ h' = heap s) /\
        (e = false ->
           sp_cb x = wp_cb w /\ is_Some (sp_cb x) /\ SharedPtr_get x = wp_ptr w /\
           n = n0 + 1).
Proof.
  intros Hcap. destruct (reachable ops Hcap) as (s & Hr & HI & Hl).
  exists s. split; [exact Hr|]. intros w Hw. apply WeakPtr_lock_spec.
  intros b Hb. destruct (weak_handle_live s w b HI Hw Hb) as (blk & E & H1 & _).
  exists blk. split; [exact E|]. rewrite H1.
  pose proof (refs_le_length sp_cb b (strongs s)). unfold strong_refs, handles in *. lia.
Qed.

(** ** The theorems at concrete inputs *)

Lemma adopt_null_vs_empty_witness :
  derives_esft plain_class = false /\
  exists s h',
    SharedPtr_adopt plain_class nullptr empty_heap = Some (s, h') /\
    SharedPtr_use_count s h' = Some (1, h') /\
    SharedPtr_get s = nullptr.
Proof.
  split; [reflexivity|].
  destruct (adopt_null_vs_empty plain_class empty_heap eq_refl)
    as (s & h' & H1 & _ & _ & _ & H2 & H3 & _).
  exists s, h'. auto.
Defined.

Lemma allocateShared_spec_witness :
  ctor_succeeds plain_class [1; 2] = true /\
  exists h',
    allocateShared plain_class std_allocator [1; 2] empty_heap =
      Some (Returned (mkSharedPtr (storage_of 1%positive) (Some 1%positive)), h').
Proof.
  split; [reflexivity|]. eexists.
  exact (proj1 (allocateShared_spec plain_class std_allocator [1; 2] empty_heap eq_refl)).
Defined.

Lemma demo_program_within_capacity : within_capacity demo_program init_sys.
Proof.
  intros k s'.
  do 4 (destruct k as [|k];
        [intros Hr; vm_compute in Hr; injection Hr as <-; reflexivity|]).
  rewrite take_ge by (cbn; lia).
  intros Hr; vm_compute in Hr; injection Hr as <-; reflexivity.
Defined.





Lemma lock_spec_witness :
  within_capacity demo_program init_sys /\
  exists s x h',
    run demo_program init_sys = Some s /\
    WeakPtr_lock (mkWeakPtr (object_at 1%positive) (Some 1%positive)) (heap s) =
      Some (x, h') /\
    SharedPtr_use_count x h' = Some (2, h').
Proof.
  split; [exact demo_program_within_capacity|].
  destruct (lock_spec demo_program demo_program_within_capacity) as (s & Hr & Hall).
  destruct (Hall (mkWeakPtr (object_at 1%positive) (Some 1%positive)))
    as (e & n0 & x & h' & n & He & Hn0 & Hl & Hn & _ & _ & Hfalse).
  - vm_compute in Hr. injection Hr as <-. cbn [weaks]. apply list_elem_of_here.
  - exists s, x, h'. split; [exact Hr|]. split; [exact Hl|].
    vm_compute in Hr. injection Hr as Hs. rewrite <- Hs in He, Hn0.
    assert (e = false) as -> by (vm_compute in He; congruence).
    assert (n0 = 1) as -> by (vm_compute in Hn0; congruence).
    destruct (Hfalse eq_refl) as (_ & _ & _ & ->). exact Hn.
Defined.



(** ** The payload on the three-argument path *)

(** C1 fails on the code.  A program that adopts a new object with
    [SharedPtr(U*, Delete, Alloc)] and lets the handle go out of scope
    runs both phases of the release: [destroy()] is called once, then
    [deallocate()] once, and the block's storage is given back.  But the
    block never received the adopted pointer, [destroy()] calls the
    deleter on a null pointer, and the payload is never destroyed: its
    object is still there when the storage of the block is gone.  With
    the one-argument constructor the same program destroys the payload
    before it releases the storage. *)
Theorem storage_released_payload_alive :
  exists s,
    run adopt_with_allocator init_sys = Some s /\
    strongs s = [] /\ weaks s = [] /\
    destroy_calls 1%positive s = 1%nat /\
    deallocate_calls 1%positive s = 1%nat /\
    blocks (heap s) !! 1%positive = None /\
    allocated (heap s) = ∅ /\
    trace (heap s) = [EvAllocate 1%positive; EvDestroy 1%positive;
                      EvDeleter default_delete nullptr;
                      EvDeallocate 1%positive std_allocator] /\
    (forall p, EvDestructor p ∉ trace (heap s)) /\
    objects (heap s) !! 1%positive = Some (construct_object plain_class [1]) /\
    exists s',
      run adopt_default init_sys = Some s' /\
      trace (heap s') = [EvAllocate 1%positive; EvDestroy 1%positive;
                         EvDeleter default_delete (object_at 1%positive);
                         EvDestructor (object_at 1%positive);
                         EvDeallocate 1%positive std_allocator] /\
      objects (heap s') !! 1%positive = None.
Proof.
  eexists. split; [vm_compute; reflexivity|].
  split; [reflexivity|]. split; [reflexivity|]. split; [reflexivity|].
  split; [reflexivity|]. split; [reflexivity|]. split; [reflexivity|].
  split; [reflexivity|]. split.
  { intros p Hp. cbn [heap trace] in Hp.
    repeat (apply elem_of_cons in Hp as [Hp|Hp]; [discriminate|]).
    inversion Hp. }
  split; [reflexivity|].
  eexists. split; [vm_compute; reflexivity|]. split; reflexivity.
Qed.

(** ** More handles than the counter holds *)

Lemma uint_incr_mod (n : Z) : uint_incr (n mod uint_modulus) = (n + 1) mod uint_modulus.
Proof. unfold uint_incr. rewrite Zplus_mod_idemp_l. reflexivity. Qed.

Lemma run_cons (op : Op) (ops : list Op) (s : Sys) :
  run (op :: ops) s = match step op s with
                      | Some s' => run ops s'
                      | None => None
                      end.
Proof. reflexivity. Qed.

(** [n] copies of the handle [s_0] add [n] handles to the program and [n]
    to the strong count of its block, modulo [2^32]. *)
Lemma run_copies (n : nat) (s : Sys) (x : SharedPtr) (b : block_id) (c : Z) :
  strongs s !! 0%nat = Some x -> sp_cb x = Some b ->
  (exists blk, blocks (heap s) !! b = Some blk /\
               shared_count blk = c mod uint_modulus) ->
  exists s',
    run (repeat (OpCopy 0) n) s = Some s' /\
    strongs s' = strongs s ++ repeat x n /\
    weaks s' = weaks s /\
    exists blk', blocks (heap s') !! b = Some blk' /\
                 shared_count blk' = (c + Z.of_nat n) mod uint_modulus.
Proof.
  revert s c. induction n as [|n IH]; intros s c Hx Hb (blk & Hblk & Hc).
  - exists s. split; [reflexivity|]. split; [cbn [repeat]; rewrite app_nil_r; reflexivity|].
    split; [reflexivity|]. exists blk. split; [exact Hblk|].
    rewrite Hc. f_equal. lia.
  - destruct x as [p cb]. cbn [sp_cb] in Hb. subst cb.
    cbn [repeat]. rewrite run_cons. cbn [step]. rewrite Hx.
    unfold on_heap, SharedPtr_copy. run_with Hblk.
    rewrite Hc, uint_incr_mod.
    match goal with
    | |- context [run _ ?s1] =>
        destruct (IH s1 (c + 1)) as (s' & Hr & Hs & Hw & blk' & Hblk' & Hc')
    end.
    + cbn [strongs]. rewrite lookup_app_l by (apply lookup_lt_Some in Hx; exact Hx).
      exact Hx.
    + reflexivity.
    + cbn [heap blocks]. rewrite lookup_insert_eq. eexists. split; reflexivity.
    + exists s'. split; [exact Hr|]. cbn [strongs weaks] in Hs, Hw.
      split; [rewrite Hs, <- app_assoc; reflexivity|]. split; [exact Hw|].
      exists blk'. split; [exact Hblk'|]. rewrite Hc'. f_equal. lia.
Qed.

Lemma refs_repeat {A} (cb : A -> option block_id) (b : block_id) (x : A) (n : nat) :
  cb x = Some b -> refs cb b (repeat x n) = n.
Proof.
  intros Hx. induction n as [|n IH]; [reflexivity|].
  cbn [repeat]. rewrite refs_cons, IH, Hx, unit_of_same. reflexivity.
Qed.



(** C3 as stated fails: the increment in [lock()] is modulo [2^32].  A
    program that adopts an object, observes it and copies the strong
    handle [UINT_MAX - 1] times holds [UINT_MAX] live strong handles; its
    weak handle is not expired, and [lock()] on it returns a handle on the
    block whose [use_count()] is zero, not one more than before. *)
Lemma lock_wraps_to_zero :
  exists s w x h',
    run full_program init_sys = Some s /\
    weaks s = [w] /\
    Z.of_nat (strong_refs 1%positive (strongs s)) = UINT_MAX /\
    SharedPtr_use_count (mkSharedPtr (wp_ptr w) (wp_cb w)) (heap s) =
      Some (UINT_MAX, heap s) /\
    WeakPtr_expired w (heap s) = Some (false, heap s) /\
    WeakPtr_lock w (heap s) = Some (x, h') /\
    sp_cb x = wp_cb w /\ sp_cb x = Some 1%positive /\
    SharedPtr_get x = object_at 1%positive /\
    SharedPtr_use_count x h' = Some (0, h').
Proof.
  unfold full_program.
  rewrite run_app.
  assert (Hstep : exists s1,
            run observe init_sys = Some s1 /\
            strongs s1 = [mkSharedPtr (object_at 1%positive) (Some 1%positive)] /\
            weaks s1 = [mkWeakPtr (object_at 1%positive) (Some 1%positive)] /\
            exists blk, blocks (heap s1) !! 1%positive = Some blk /\
                        shared_count blk = 1 mod uint_modulus).
  { eexists. split; [vm_compute; reflexivity|]. split; [reflexivity|].
    split; [reflexivity|]. eexists. split; reflexivity. }
  destruct Hstep as (s1 & -> & Hs1 & Hw1 & Hblk).
  destruct (run_copies (Z.to_nat (UINT_MAX - 1)) s1
              (mkSharedPtr (object_at 1%positive) (Some 1%positive)) 1%positive 1)
    as (s & Hr & Hs & Hw & blk' & Hblk' & Hc); [rewrite Hs1; reflexivity|reflexivity|exact Hblk|].
  rewrite Z2Nat.id in Hc by (rewrite UINT_MAX_value; lia).
  replace ((1 + (UINT_MAX - 1)) mod uint_modulus) with UINT_MAX in Hc by reflexivity.
  exists s, (mkWeakPtr (object_at 1%positive) (Some 1%positive)).
  eexists _, _. split; [exact Hr|]. split; [rewrite Hw, Hw1; reflexivity|]. split.
  { rewrite Hs, Hs1. unfold strong_refs.
    rewrite refs_app, refs_cons, refs_nil, refs_repeat by reflexivity.
    cbn [sp_cb]. rewrite unit_of_same.
    rewrite Nat.add_0_r, Nat2Z.inj_add, Z2Nat.id by (rewrite UINT_MAX_value; lia).
    change (Z.of_nat 1) with 1. lia. }
  split.
  { unfold SharedPtr_use_count. run_with Hblk'. rewrite Hc. reflexivity. }
  split.
  { unfold WeakPtr_expired. run_with Hblk'. rewrite Hc. reflexivity. }
  split.
  { unfold WeakPtr_lock, WeakPtr_expired, SharedPtr_from_weak. run_with Hblk'.
    rewrite Hc. change (UINT_MAX =? 0) with false. cbv iota. run_with Hblk'.
    rewrite Hc, uint_incr_wraps. reflexivity. }
  split; [reflexivity|]. split; [reflexivity|]. split; [reflexivity|].
  unfold SharedPtr_use_count. run_monad. reflexivity.
Qed.

(** * Further properties of the member functions *)

(** ** Records and counters *)

Lemma Heap_eta (h : Heap) :
  mkHeap (blocks h) (objects h) (allocated h) (next_block h) (trace h) = h.
Proof. destruct h; reflexivity. Qed.

Lemma Block_eta (blk : BaseControlBlock) :
  mkBlock (shared_count blk) (weak_count blk) (layout blk) = blk.
Proof. destruct blk; reflexivity. Qed.

Lemma uint_decr_incr (n : Z) : 0 <= n <= UINT_MAX -> uint_decr (uint_incr n) = n.
Proof.
  intros H. unfold uint_decr, uint_incr.
  rewrite Zminus_mod_idemp_l. replace (n + 1 - 1) with n by lia.
  apply Z.mod_small. unfold UINT_MAX in H. lia.
Qed.

Lemma uint_incr_range (n : Z) : 0 <= uint_incr n <= UINT_MAX.
Proof.
  unfold uint_incr, UINT_MAX.
  pose proof (Z.mod_pos_bound (n + 1) uint_modulus eq_refl). lia.
Qed.

Lemma insert_same_block (m : gmap block_id BaseControlBlock) (b : block_id)
    (blk : BaseControlBlock) s w :
  m !! b = Some blk -> s = shared_count blk -> w = weak_count blk ->
  <[b := mkBlock s w (layout blk)]> m = m.
Proof. intros Hb -> ->. rewrite Block_eta. apply insert_id, Hb. Qed.

(** ** The converting constructors take their argument by value *)

(** X1.  [SharedPtr(SharedPtr<U> shp)] copies its argument into the
    parameter, increments the count for the new handle and lets the
    parameter die: as long as the strong count is below [UINT_MAX] the call
    leaves the memory exactly as the copy constructor does, with the count
    one higher. *)
Theorem SharedPtr_convert_is_copy (x : SharedPtr) (h : Heap) :
  (forall b, sp_cb x = Some b ->
     exists blk, blocks h !! b = Some blk /\ 0 <= shared_count blk < UINT_MAX) ->
  exists h',
    SharedPtr_convert x h = Some (x, h') /\
    SharedPtr_copy x h = Some (x, h') /\
    (forall b blk, sp_cb x = Some b -> blocks h !! b = Some blk ->
       SharedPtr_use_count x h' = Some (shared_count blk + 1, h')).
Proof.
  intros Hlive. destruct x as [p [b|]]; cbn [sp_cb] in *.
  - destruct (Hlive b eq_refl) as (blk & Hb & Hr).
    unfold SharedPtr_convert, SharedPtr_copy, SharedPtr_dtor, SharedPtr_use_count.
    run_with Hb. rewrite uint_decr_incr by apply uint_incr_range.
    rewrite (uint_incr_small (shared_count blk)) by exact Hr.
    replace (shared_count blk + 1 =? 0) with false by (symmetry; apply Z.eqb_neq; lia).
    eexists. split; [reflexivity|]. split; [reflexivity|].
    intros b' blk' [= <-] Hb'. rewrite Hb in Hb'. injection Hb' as <-.
    run_monad. reflexivity.
  - exists h. unfold SharedPtr_convert, SharedPtr_copy, SharedPtr_dtor. run_monad.
    split; [reflexivity|]. split; [reflexivity|]. intros b blk [=].
Qed.

(** X2.  [WeakPtr(WeakPtr<U> wp)] takes its argument by value as well: as
    long as the weak count is below [UINT_MAX] the call leaves the memory
    exactly as the copy constructor of [WeakPtr] does, with the weak count
    one higher. *)
Theorem WeakPtr_convert_is_copy (w : WeakPtr) (h : Heap) :
  (forall b, wp_cb w = Some b ->
     exists blk, blocks h !! b = Some blk /\ 0 <= weak_count blk < UINT_MAX) ->
  exists h',
    WeakPtr_convert w h = Some (w, h') /\
    WeakPtr_copy w h = Some (w, h') /\
    (forall b blk, wp_cb w = Some b -> blocks h !! b = Some blk ->
       blocks h' !! b = Some (set_weak_count (weak_count blk + 1) blk)).
Proof.
  intros Hlive. destruct w as [p [b|]]; cbn [wp_cb] in *.
  - destruct (Hlive b eq_refl) as (blk & Hb & Hr).
    unfold WeakPtr_convert, WeakPtr_copy, WeakPtr_dtor.
    run_with Hb. rewrite uint_decr_incr by apply uint_incr_range.
    rewrite (uint_incr_small (weak_count blk)) by exact Hr.
    replace (weak_count blk + 1 =? 0) with false by (symmetry; apply Z.eqb_neq; lia).
    cbn [andb]. eexists. split; [reflexivity|]. split; [reflexivity|].
    intros b' blk' [= <-] Hb'. rewrite Hb in Hb'. injection Hb' as <-.
    cbn [blocks]. rewrite lookup_insert_eq. reflexivity.
  - exists h. unfold WeakPtr_convert, WeakPtr_copy, WeakPtr_dtor. run_monad.
    split; [reflexivity|]. split; [reflexivity|]. intros b blk [=].
Qed.

(** X3.  [WeakPtr(SharedPtr<U> shp)] takes the strong handle by value: the
    strong count goes up for the parameter and down again when it dies. From
    a handle whose block has a strong count of at least one, the call leaves
    the memory as a copy of a weak handle to the same block does: the weak
    count is incremented, the strong count and the payload are as before. *)
Theorem WeakPtr_from_shared_is_copy (x : SharedPtr) (h : Heap) :
  (forall b, sp_cb x = Some b ->
     exists blk, blocks h !! b = Some blk /\ 1 <= shared_count blk <= UINT_MAX) ->
  exists h',
    WeakPtr_from_shared x h = Some (mkWeakPtr (sp_ptr x) (sp_cb x), h') /\
    WeakPtr_copy (mkWeakPtr (sp_ptr x) (sp_cb x)) h =
      Some (mkWeakPtr (sp_ptr x) (sp_cb x), h') /\
    exists n, SharedPtr_use_count x h = Some (n, h) /\
              SharedPtr_use_count x h' = Some (n, h').
Proof.
  intros Hlive. destruct x as [p [b|]]; cbn [sp_cb sp_ptr] in *.
  - destruct (Hlive b eq_refl) as (blk & Hb & Hr).
    unfold WeakPtr_from_shared, WeakPtr_copy, SharedPtr_copy, SharedPtr_dtor,
      SharedPtr_use_count.
    run_with Hb. rewrite uint_decr_incr by lia.
    replace (shared_count blk =? 0) with false by (symmetry; apply Z.eqb_neq; lia).
    eexists. split; [reflexivity|]. split; [reflexivity|].
    run_monad. eexists. split; reflexivity.
  - exists h. unfold WeakPtr_from_shared, WeakPtr_copy, SharedPtr_copy, SharedPtr_dtor.
    run_monad. split; [reflexivity|]. split; [reflexivity|].
    exists 0. split; reflexivity.
Qed.

(** ** Weak handles never act on the strong side *)

Lemma strong_side_kept_refl (h : Heap) : strong_side_kept h h.
Proof.
  split; [reflexivity|]. split; [eauto|]. split; [eauto|].
  exists []. rewrite app_nil_r. split; [reflexivity|constructor].
Qed.

Lemma strong_side_kept_trans (h1 h2 h3 : Heap) :
  strong_side_kept h1 h2 -> strong_side_kept h2 h3 -> strong_side_kept h1 h3.
Proof.
  intros (Ho1 & Hb1 & Hl1 & evs1 & Ht1 & Hf1) (Ho2 & Hb2 & Hl2 & evs2 & Ht2 & Hf2).
  split; [congruence|]. split; [|split].
  - intros b blk3 H3. destruct (Hb2 b blk3 H3) as (blk2 & H2 & Hs2 & Hy2).
    destruct (Hb1 b blk2 H2) as (blk1 & H1 & Hs1 & Hy1).
    exists blk1. split; [exact H1|]. split; congruence.
  - intros b blk1 H1 Hn. destruct (Hl1 b blk1 H1 Hn) as [blk2 H2].
    destruct (Hb1 b blk2 H2) as (blk1' & H1' & Hs1 & _).
    apply (Hl2 b blk2 H2). congruence.
  - exists (evs1 ++ evs2). rewrite Ht2, Ht1, app_assoc. split; [reflexivity|].
    apply Forall_app; auto.
Qed.

Lemma strong_side_kept_counts (h : Heap) (b : block_id) (blk : BaseControlBlock) (w : Z) :
  blocks h !! b = Some blk ->
  strong_side_kept h
    (mkHeap (<[b := mkBlock (shared_count blk) w (layout blk)]> (blocks h)) (objects h)
            (allocated h) (next_block h) (trace h)).
Proof.
  intros Hb. split; [reflexivity|]. cbn [blocks trace]. split; [|split].
  - intros b' blk'. destruct (decide (b' = b)) as [->|Hne].
    + rewrite lookup_insert_eq. intros [= <-]. exists blk. auto.
    + rewrite lookup_insert_ne by congruence. eauto.
  - intros b' blk' Hb' _. destruct (decide (b' = b)) as [->|Hne].
    + rewrite lookup_insert_eq. eauto.
    + rewrite lookup_insert_ne by congruence. eauto.
  - exists []. rewrite app_nil_r. split; [reflexivity|constructor].
Qed.

Lemma strong_side_kept_deallocate (h : Heap) (b : block_id) (blk : BaseControlBlock)
    (w : Z) (al : Alloc) :
  blocks h !! b = Some blk -> shared_count blk = 0 ->
  strong_side_kept h
    (mkHeap (delete b (<[b := mkBlock (shared_count blk) w (layout blk)]> (blocks h)))
            (objects h) (allocated h ∖ {[ b ]}) (next_block h)
            (trace h ++ [EvDeallocate b al])).
Proof.
  intros Hb H0. split; [reflexivity|]. cbn [blocks trace]. split; [|split].
  - intros b' blk'. destruct (decide (b' = b)) as [->|Hne].
    + rewrite lookup_delete_eq. discriminate.
    + rewrite lookup_delete_ne, lookup_insert_ne by congruence. eauto.
  - intros b' blk' Hb' Hn. destruct (decide (b' = b)) as [->|Hne].
    + congruence.
    + rewrite lookup_delete_ne, lookup_insert_ne by congruence. eauto.
  - eexists. split; [reflexivity|]. repeat constructor.
Qed.

Lemma WeakPtr_copy_kept (w : WeakPtr) (h : Heap) :
  weak_live w h ->
  exists h', WeakPtr_copy w h = Some (w, h') /\ strong_side_kept h h' /\
             (forall b, is_Some (blocks h !! b) -> is_Some (blocks h' !! b)).
Proof.
  intros Hl. destruct w as [p [b|]]; unfold WeakPtr_copy; cbn [wp_cb wp_ptr].
  - destruct (Hl b eq_refl) as [blk Hb]. run_with Hb.
    eexists. split; [reflexivity|]. split; [apply strong_side_kept_counts, Hb|].
    cbn [blocks]. intros b'. destruct (decide (b' = b)) as [->|Hne].
    + rewrite lookup_insert_eq. eauto.
    + rewrite lookup_insert_ne by congruence. auto.
  - exists h. split; [reflexivity|]. split; [apply strong_side_kept_refl|auto].
Qed.

Lemma WeakPtr_dtor_kept (w : WeakPtr) (h : Heap) :
  weak_live w h ->
  exists h', WeakPtr_dtor w h = Some (tt, h') /\ strong_side_kept h h' /\
             (forall b, wp_cb w <> Some b ->
                is_Some (blocks h !! b) -> is_Some (blocks h' !! b)).
Proof.
  intros Hl. destruct w as [p [b|]]; unfold WeakPtr_dtor; cbn [wp_cb wp_ptr].
  - destruct (Hl b eq_refl) as [blk Hb]. run_with Hb.
    destruct (uint_decr (weak_count blk) =? 0); cbn [andb];
      [destruct (shared_count blk =? 0) eqn:H0|].
    + apply Z.eqb_eq in H0.
      unfold deallocate. cbn [blocks]. rewrite lookup_insert_eq.
      eexists. split; [reflexivity|]. cbn [blocks objects allocated next_block trace layout].
      split; [apply strong_side_kept_deallocate; assumption|].
      cbn [blocks]. intros b' Hne.
      rewrite lookup_delete_ne, lookup_insert_ne by congruence. auto.
    + eexists. split; [reflexivity|]. split; [apply strong_side_kept_counts, Hb|].
      cbn [blocks]. intros b' Hne. rewrite lookup_insert_ne by congruence. auto.
    + eexists. split; [reflexivity|]. split; [apply strong_side_kept_counts, Hb|].
      cbn [blocks]. intros b' Hne. rewrite lookup_insert_ne by congruence. auto.
  - exists h. split; [reflexivity|]. split; [apply strong_side_kept_refl|auto].
Qed.

Lemma weak_live_mono (w : WeakPtr) (h h' : Heap) :
  (forall b, is_Some (blocks h !! b) -> is_Some (blocks h' !! b)) ->
  weak_live w h -> weak_live w h'.
Proof. intros Hm Hl b Hb. apply Hm, Hl, Hb. Qed.

(** X4.  Copying, converting, assigning and destroying weak handles whose
    blocks are allocated is defined and never touches the strong side of any
    block: no strong count changes, no payload is destroyed or deleted, no
    deleter runs; [expired()] and [use_count()] change nothing at all. *)
Theorem weak_ops_keep_strong_side (this w : WeakPtr) (h : Heap) :
  weak_live this h -> weak_live w h ->
  (exists h', WeakPtr_copy w h = Some (w, h') /\ strong_side_kept h h') /\
  (exists h', WeakPtr_convert w h = Some (w, h') /\ strong_side_kept h h') /\
  (exists h', WeakPtr_dtor w h = Some (tt, h') /\ strong_side_kept h h') /\
  (exists h', WeakPtr_assign this w h = Some (w, h') /\ strong_side_kept h h') /\
  (exists h', WeakPtr_move_assign false this w h = Some ((w, WeakPtr_default), h') /\
              strong_side_kept h h') /\
  (exists e, WeakPtr_expired w h = Some (e, h)) /\
  (exists n, WeakPtr_use_count w h = Some (n, h)).
Proof.
  intros Ht Hw.
  destruct (WeakPtr_copy_kept w h Hw) as (h1 & Hc1 & Hk1 & Hm1).
  assert (Hw1 : weak_live w h1) by (eapply weak_live_mono; eauto).
  assert (Ht1 : weak_live this h1) by (eapply weak_live_mono; eauto).
  split; [eauto|]. split; [|split; [|split; [|split; [|split]]]].
  - destruct (WeakPtr_copy_kept w h1 Hw1) as (h2 & Hc2 & Hk2 & Hm2).
    assert (Hw2 : weak_live w h2) by (eapply weak_live_mono; eauto).
    destruct (WeakPtr_dtor_kept w h2 Hw2) as (h3 & Hd & Hk3 & _).
    exists h3. unfold WeakPtr_convert.
    rewrite (bind_Some _ _ _ _ _ Hc1). cbv beta.
    rewrite (bind_Some _ _ _ _ _ Hc2). cbv beta.
    rewrite (bind_Some _ _ _ _ _ Hd). split; [reflexivity|].
    eauto using strong_side_kept_trans.
  - destruct (WeakPtr_dtor_kept w h Hw) as (h' & Hd & Hk & _). eauto.
  - destruct (WeakPtr_dtor_kept this h1 Ht1) as (h2 & Hd & Hk2 & _).
    exists h2. unfold WeakPtr_assign, WeakPtr_swap.
    rewrite (bind_Some _ _ _ _ _ Hc1). cbv beta iota.
    rewrite (bind_Some _ _ _ _ _ Hd). split; [reflexivity|].
    eauto using strong_side_kept_trans.
  - destruct (WeakPtr_dtor_kept this h Ht) as (h2 & Hd & Hk2 & _).
    exists h2. unfold WeakPtr_move_assign, WeakPtr_move, WeakPtr_swap. cbv beta iota.
    rewrite (bind_Some _ _ _ _ _ Hd). split; [|exact Hk2].
    destruct w; reflexivity.
  - unfold WeakPtr_expired. destruct (wp_cb w) as [b|] eqn:Eb; [|eexists; reflexivity].
    destruct (Hw b Eb) as [blk Hb]. run_with Hb. eexists; reflexivity.
  - unfold WeakPtr_use_count. destruct (wp_cb w) as [b|] eqn:Eb; [|eexists; reflexivity].
    destruct (Hw b Eb) as [blk Hb]. run_with Hb. eexists; reflexivity.
Qed.

(** X5.  [expired()] is [use_count() == 0], and the [use_count()] of a weak
    handle is that of any strong handle on the same block. *)
Theorem expired_iff_use_count_zero (w : WeakPtr) (h : Heap) :
  weak_live w h ->
  exists e n,
    WeakPtr_expired w h = Some (e, h) /\
    WeakPtr_use_count w h = Some (n, h) /\
    (e = true <-> n = 0) /\
    (forall x, sp_cb x = wp_cb w -> SharedPtr_use_count x h = Some (n, h)).
Proof.
  intros Hw. unfold WeakPtr_expired, WeakPtr_use_count, SharedPtr_use_count.
  destruct (wp_cb w) as [b|] eqn:Eb.
  - destruct (Hw b Eb) as [blk Hb]. run_with Hb.
    exists (shared_count blk =? 0), (shared_count blk).
    split; [reflexivity|]. split; [reflexivity|]. split; [apply Z.eqb_eq|].
    intros x ->. run_with Hb. reflexivity.
  - exists true, 0. split; [reflexivity|]. split; [reflexivity|]. split; [tauto|].
    intros x ->. reflexivity.
Qed.

(** ** Copy assignment within one ownership group *)

(** X6.  Assigning a handle to itself, or assigning between two handles that
    share a block, leaves the memory as it is: the count goes up for the
    temporary copy and down again when the temporary dies with the old
    value, and nothing is destroyed. *)
Theorem SharedPtr_assign_same_block (this shp : SharedPtr) (h : Heap) :
  strong_live shp h -> sp_cb this = sp_cb shp ->
  SharedPtr_assign true this this h = Some (this, h) /\
  SharedPtr_assign false this shp h = Some (shp, h).
Proof.
  intros Hl Hcb. split; [reflexivity|].
  unfold SharedPtr_assign, SharedPtr_swap, SharedPtr_copy, SharedPtr_dtor.
  destruct this as [q c], shp as [p [b|]]; cbn [sp_cb sp_ptr] in *; subst c.
  - destruct (Hl b eq_refl) as (blk & Hb & Hr). run_with Hb.
    rewrite uint_decr_incr by lia.
    replace (shared_count blk =? 0) with false by (symmetry; apply Z.eqb_neq; lia).
    rewrite (insert_same_block _ _ _ _ _ Hb eq_refl eq_refl), Heap_eta. reflexivity.
  - run_monad. reflexivity.
Qed.

(** ** From a strong handle to a weak handle and back *)

(** X7.  A weak handle made from a strong handle whose block has a strong
    count below [UINT_MAX] is not expired, and [lock()] on it gives back the
    strong handle: same pointer, same block, [use_count()] one higher than
    before. *)
Theorem weak_lock_round_trip (x : SharedPtr) (b : block_id) (blk : BaseControlBlock)
    (h : Heap) :
  sp_cb x = Some b -> blocks h !! b = Some blk ->
  1 <= shared_count blk < UINT_MAX ->
  exists w h1 h2,
    WeakPtr_from_shared x h = Some (w, h1) /\
    WeakPtr_expired w h1 = Some (false, h1) /\
    WeakPtr_lock w h1 = Some (x, h2) /\
    SharedPtr_use_count x h2 = Some (shared_count blk + 1, h2) /\
    blocks h2 !! b =
      Some (mkBlock (shared_count blk + 1) (uint_incr (weak_count blk)) (layout blk)).
Proof.
  intros Hcb Hb Hr. destruct x as [p c]; cbn [sp_cb] in Hcb; subst c.
  unfold WeakPtr_from_shared, WeakPtr_lock, WeakPtr_expired, SharedPtr_from_weak,
    SharedPtr_copy, SharedPtr_dtor, SharedPtr_use_count.
  run_with Hb. rewrite uint_decr_incr by lia.
  replace (shared_count blk =? 0) with false by (symmetry; apply Z.eqb_neq; lia).
  eexists _, _, _. split; [reflexivity|]. run_monad.
  replace (shared_count blk =? 0) with false by (symmetry; apply Z.eqb_neq; lia).
  split; [reflexivity|]. run_monad. rewrite uint_incr_small by lia.
  split; [reflexivity|]. run_monad. split; reflexivity.
Qed.

(** ** Creation followed by release *)

Lemma delete_insert_fresh (m : gmap block_id BaseControlBlock) (b : block_id)
    (blk : BaseControlBlock) :
  m !! b = None -> delete b (<[b := blk]> m) = m.
Proof.
  intros Hb. apply map_eq. intros b'. destruct (decide (b' = b)) as [->|Hne].
  - rewrite lookup_delete_eq. symmetry. exact Hb.
  - rewrite lookup_delete_ne, lookup_insert_ne by congruence. reflexivity.
Qed.

Lemma allocated_restore (A : gset block_id) (b : block_id) :
  b ∉ A -> ({[ b ]} ∪ A) ∖ {[ b ]} = A.
Proof.
  intros Hb. apply set_eq. intros x.
  rewrite elem_of_difference, elem_of_union, elem_of_singleton. split.
  - intros [[-> | H] Hn]; [contradiction|exact H].
  - intros H. split; [right; exact H|]. intros ->. contradiction.
Qed.

(** X8.  A handle made by [allocateShared] and released at once: the payload
    is constructed in the block and destroyed in place, the block is given
    back through the allocator that was passed in, and the stores of blocks
    and of separately allocated objects are as before. This holds of every
    payload type, self-observing or not. *)
Theorem allocateShared_release (T : Class) (alloc : Alloc) (args : list Z) (h : Heap) :
  ctor_succeeds T args = true ->
  blocks h !! next_block h = None ->
  next_block h ∉ allocated h ->
  let b := next_block h in
  exists s h1 h2,
    allocateShared T alloc args h = Some (Returned s, h1) /\
    SharedPtr_dtor s h1 = Some (tt, h2) /\
    blocks h2 = blocks h /\ objects h2 = objects h /\ allocated h2 = allocated h /\
    trace h2 = trace h ++ [EvAllocate b; EvConstruct b args; EvDestroy b;
                           EvDestructor (storage_of b); EvDeallocate b alloc].
Proof.
  intros Hc Hfree Hna b. unfold allocateShared, SharedPtr_dtor, destroy, deallocate.
  rewrite Hc. run_monad. eexists _, _, _. split; [reflexivity|]. run_monad.
  change (uint_decr 1) with 0. run_monad.
  unfold Object_dtor, construct_object, WeakPtr_dtor. cbn [enable_wp].
  destruct (derives_esft T); run_monad.
  all: split; [reflexivity|]; cbn [blocks objects allocated trace].
  all: split; [apply delete_insert_fresh, Hfree|].
  all: split; [reflexivity|]; split; [apply allocated_restore, Hna|].
  all: rewrite <- !app_assoc; reflexivity.
Qed.

(** X9.  A pointer adopted with a deleter of the caller and released at
    once: the deleter is called once, on the adopted pointer, nothing is
    deleted by the library, and the block is given back through
    [std::allocator]. *)
Theorem adopt_custom_deleter_release (U : Class) (p : pointer) (d : nat) (h : Heap) :
  derives_esft U = false ->
  blocks h !! next_block h = None ->
  next_block h ∉ allocated h ->
  let b := next_block h in
  exists s h1 h2,
    SharedPtr_adopt_deleter U p (custom_delete d) h = Some (s, h1) /\
    SharedPtr_get s = p /\ SharedPtr_use_count s h1 = Some (1, h1) /\
    SharedPtr_dtor s h1 = Some (tt, h2) /\
    blocks h2 = blocks h /\ objects h2 = objects h /\ allocated h2 = allocated h /\
    trace h2 = trace h ++ [EvAllocate b; EvDestroy b; EvDeleter (custom_delete d) p;
                           EvDeallocate b std_allocator].
Proof.
  intros HU Hfree Hna b.
  unfold SharedPtr_adopt_deleter, SharedPtr_dtor, destroy, deallocate, call_deleter,
    SharedPtr_use_count.
  rewrite HU. run_monad. eexists _, _, _. split; [reflexivity|].
  split; [reflexivity|]. run_monad. split; [reflexivity|].
  change (uint_decr 1) with 0. run_monad.
  split; [reflexivity|]; cbn [blocks objects allocated trace].
  split; [apply delete_insert_fresh, Hfree|].
  split; [reflexivity|]; split; [apply allocated_restore, Hna|].
  rewrite <- !app_assoc; reflexivity.
Qed.

(** X10.  A pointer adopted with a deleter and an allocator and released at
    once: the block is given back through the allocator that was passed in;
    the deleter is called once, on a null pointer, whatever was adopted, so
    the payload is left alone. *)
Theorem adopt_deleter_alloc_release (U : Class) (p : pointer) (d : Delete) (al : Alloc)
    (h : Heap) :
  derives_esft U = false ->
  blocks h !! next_block h = None ->
  next_block h ∉ allocated h ->
  let b := next_block h in
  exists s h1 h2,
    SharedPtr_adopt_deleter_alloc U p d al h = Some (s, h1) /\
    SharedPtr_get s = p /\ SharedPtr_use_count s h1 = Some (1, h1) /\
    SharedPtr_dtor s h1 = Some (tt, h2) /\
    blocks h2 = blocks h /\ objects h2 = objects h /\ allocated h2 = allocated h /\
    trace h2 = trace h ++ [EvAllocate b; EvDestroy b; EvDeleter d nullptr;
                           EvDeallocate b al].
Proof.
  intros HU Hfree Hna b.
  unfold SharedPtr_adopt_deleter_alloc, SharedPtr_dtor, destroy, deallocate, call_deleter,
    SharedPtr_use_count.
  rewrite HU. run_monad. eexists _, _, _. split; [reflexivity|].
  split; [reflexivity|]. run_monad. split; [reflexivity|].
  change (uint_decr 1) with 0. run_monad.
  destruct d; run_monad.
  all: split; [reflexivity|]; cbn [blocks objects allocated trace].
  all: split; [apply delete_insert_fresh, Hfree|].
  all: split; [reflexivity|]; split; [apply allocated_restore, Hna|].
  all: rewrite <- !app_assoc; reflexivity.
Qed.

(** ** The counters at their capacity *)

(** X13.  The counts are unsigned 32-bit integers and nothing guards the
    increment. Copying a handle whose block has a strong count of [UINT_MAX]
    wraps the count to zero: [use_count()] is then zero although handles
    exist, every weak handle to the block reports [expired()] and [lock()]
    returns an empty handle. Destroying the copy wraps the count back,
    without destroying the payload. *)
Theorem count_wraps_at_capacity (x : SharedPtr) (b : block_id) (blk : BaseControlBlock)
    (h : Heap) :
  sp_cb x = Some b -> blocks h !! b = Some blk -> shared_count blk = UINT_MAX ->
  exists h1,
    SharedPtr_copy x h = Some (x, h1) /\
    SharedPtr_use_count x h1 = Some (0, h1) /\
    (forall w, wp_cb w = Some b ->
       WeakPtr_expired w h1 = Some (true, h1) /\
       WeakPtr_lock w h1 = Some (SharedPtr_default, h1)) /\
    SharedPtr_dtor x h1 = Some (tt, h).
Proof.
  intros Hcb Hb Hmax. destruct x as [p c]; cbn [sp_cb] in Hcb; subst c.
  unfold SharedPtr_copy, SharedPtr_use_count. run_with Hb.
  rewrite Hmax, uint_incr_wraps.
  eexists. split; [reflexivity|]. run_monad. split; [reflexivity|]. split.
  - intros w Hw. unfold WeakPtr_lock, WeakPtr_expired. rewrite Hw. run_monad.
    split; reflexivity.
  - unfold SharedPtr_dtor. run_monad. rewrite uint_decr_wraps.
    change (UINT_MAX =? 0) with false. cbv iota.
    rewrite (insert_same_block _ _ _ _ _ Hb) by congruence.
    rewrite Heap_eta. reflexivity.
Qed.

(** ** One raw pointer adopted twice *)

Ltac adopted_twice :=
  repeat (progress
    (run_monad;
     match goal with
     | H : objects _ !! _ = Some _ |- _ => rewrite ?H
     end;
     match goal with
     | H : enable_wp _ = None |- _ => rewrite ?H
     end;
     change (uint_decr 1) with 0;
     rewrite ?lookup_insert_eq, ?lookup_delete_eq;
     rewrite ?lookup_insert_ne by assumption;
     rewrite ?lookup_delete_ne by assumption));
  reflexivity.

(** X23.  Every adopting constructor makes a control block of its own. When
    one raw pointer is adopted by two handles, they do not share ownership:
    each has [use_count() == 1] on a block of its own. The release of the
    first deletes the object; the release of the second makes [destroy()]
    delete it again, which is undefined. *)
Theorem double_adoption_double_delete (U : Class) (a : object_id) (o : Object)
    (h : Heap) :
  derives_esft U = false ->
  objects h !! a = Some o ->
  enable_wp o = None ->
  exists s1 h1 s2 h2 h3,
    SharedPtr_adopt U (object_at a) h = Some (s1, h1) /\
    SharedPtr_adopt U (object_at a) h1 = Some (s2, h2) /\
    SharedPtr_get s1 = SharedPtr_get s2 /\ sp_cb s1 <> sp_cb s2 /\
    SharedPtr_use_count s1 h2 = Some (1, h2) /\
    SharedPtr_use_count s2 h2 = Some (1, h2) /\
    SharedPtr_dtor s1 h2 = Some (tt, h3) /\
    objects h3 !! a = None /\
    SharedPtr_use_count s2 h3 = Some (1, h3) /\
    SharedPtr_deref s2 h3 = None /\
    SharedPtr_dtor s2 h3 = None.
Proof.
  intros HU Ho Hplain.
  assert (Hne : Pos.succ (next_block h) <> next_block h) by lia.
  eexists _, _, _, _, _.
  split; [apply SharedPtr_adopt_plain, HU|].
  split; [apply SharedPtr_adopt_plain, HU|]. hsimpl.
  split; [reflexivity|]. split; [cbn; congruence|].
  assert (Hne' : next_block h <> Pos.succ (next_block h)) by lia.
  unfold SharedPtr_use_count, SharedPtr_deref, SharedPtr_dtor, destroy, call_deleter,
    get_object, Object_dtor, free_object, deallocate.
  split; [adopted_twice|]. split; [adopted_twice|]. split; [adopted_twice|].
  split; [adopted_twice|]. split; [adopted_twice|]. split; adopted_twice.
Qed.

(** * Further properties of programs *)

Lemma Sys_eta (s : Sys) : mkSys (heap s) (strongs s) (weaks s) = s.
Proof. destruct s; reflexivity. Qed.

(** ** Programs of ordinary length are safe *)


(** ** Self-assignment *)



(** ** Assignment and [reset(ptr)] in programs *)









(** ** Swap *)

Lemma list_swap_twice {A} (l : list A) (i j : nat) (x y : A) :
  l !! i = Some x -> l !! j = Some y ->
  <[i := x]> (<[j := y]> (<[i := y]> (<[j := x]> l))) = l.
Proof.
  intros Hi Hj. destruct (decide (i = j)) as [->|Hne].
  - rewrite !list_insert_insert_eq. apply list_insert_id. exact Hi.
  - rewrite (list_insert_insert_ne (<[j := x]> l) j i y y) by congruence.
    rewrite !list_insert_insert_eq.
    rewrite (list_insert_id l j y Hj). apply list_insert_id. exact Hi.
Qed.

Lemma list_swap_lookup {A} (l : list A) (i j : nat) (x y : A) :
  l !! i = Some x -> l !! j = Some y ->
  <[i := y]> (<[j := x]> l) !! i = Some y /\
  <[i := y]> (<[j := x]> l) !! j = Some x.
Proof.
  intros Hi Hj.
  assert (Hli : (i < length (<[j := x]> l))%nat).
  { rewrite length_insert. eapply lookup_lt_Some, Hi. }
  split; [apply list_lookup_insert_eq, Hli|].
  destruct (decide (i = j)) as [->|Hne].
  - rewrite list_lookup_insert_eq by exact Hli. congruence.
  - rewrite list_lookup_insert_ne by congruence.
    apply list_lookup_insert_eq. eapply lookup_lt_Some, Hj.
Qed.

(** X19.  [swap] exchanges the pointers and blocks of two handles and
    touches no memory: the handles trade places, every count and every
    [use_count()] stays as it is, and swapping again restores the state.
    This holds of strong and of weak handles, in any state. *)
Theorem swap_exchanges (s : Sys) (i j : nat) :
  (forall x y, strongs s !! i = Some x -> strongs s !! j = Some y ->
     exists s',
       step (OpSwap i j) s = Some s' /\
       heap s' = heap s /\ weaks s' = weaks s /\
       strongs s' !! i = Some y /\ strongs s' !! j = Some x /\
       (forall b, strong_refs b (strongs s') = strong_refs b (strongs s)) /\
       SharedPtr_use_count y (heap s') = SharedPtr_use_count y (heap s) /\
       step (OpSwap i j) s' = Some s) /\
  (forall v w, weaks s !! i = Some v -> weaks s !! j = Some w ->
     exists s',
       step (OpWeakSwap i j) s = Some s' /\
       heap s' = heap s /\ strongs s' = strongs s /\
       weaks s' !! i = Some w /\ weaks s' !! j = Some v /\
       (forall b, weak_refs b (weaks s') = weak_refs b (weaks s)) /\
       step (OpWeakSwap i j) s' = Some s).
Proof.
  split.
  - intros x y Hi Hj. cbn [step]. rewrite Hi, Hj. unfold SharedPtr_swap.
    eexists. split; [reflexivity|]. hsimpl.
    destruct (list_swap_lookup (strongs s) i j x y Hi Hj) as [Li Lj].
    split; [reflexivity|]. split; [reflexivity|]. split; [exact Li|].
    split; [exact Lj|]. split; [|split; [reflexivity|]].
    + intros b. apply refs_swap; assumption.
    + rewrite Li, Lj. rewrite (list_swap_twice _ i j x y Hi Hj).
      f_equal. apply Sys_eta.
  - intros v w Hi Hj. cbn [step]. rewrite Hi, Hj. unfold WeakPtr_swap.
    eexists. split; [reflexivity|]. hsimpl.
    destruct (list_swap_lookup (weaks s) i j v w Hi Hj) as [Li Lj].
    split; [reflexivity|]. split; [reflexivity|]. split; [exact Li|].
    split; [exact Lj|]. split.
    + intros b. apply refs_swap; assumption.
    + rewrite Li, Lj. rewrite (list_swap_twice _ i j v w Hi Hj).
      f_equal. apply Sys_eta.
Qed.

(** ** Block storage is held exactly as long as a handle needs it *)

Lemma preserves_ret {A} (P : Heap -> Prop) (a : A) : preserves P (ret a).
Proof. intros h a' h' [= _ <-] H. exact H. Qed.

Lemma preserves_undefined {A} (P : Heap -> Prop) : preserves P (@undefined A).
Proof. intros h a h' [=]. Qed.

Lemma preserves_bind {A B} (P : Heap -> Prop) (m : M A) (k : A -> M B) :
  preserves P m -> (forall a, preserves P (k a)) -> preserves P (bind m k).
Proof.
  intros Hm Hk h b h'. unfold bind.
  destruct (m h) as [[a h1]|] eqn:E; [|discriminate].
  intros Hb HP. exact (Hk a h1 b h' Hb (Hm h a h1 E HP)).
Qed.

Lemma storage_log (e : Event) : preserves storage_ok (log e).
Proof. intros h a h' [= _ <-] H. exact H. Qed.

Lemma storage_get_block (b : block_id) : preserves storage_ok (get_block b).
Proof.
  intros h a h'. unfold get_block. destruct (blocks h !! b); [|discriminate].
  intros [= _ <-] H. exact H.
Qed.

Lemma storage_put_block (b : block_id) (blk : BaseControlBlock) :
  preserves storage_ok (put_block b blk).
Proof.
  intros h a h'. unfold put_block. destruct (blocks h !! b) eqn:E; [|discriminate].
  intros [= _ <-]. unfold storage_ok. cbn [allocated blocks]. intros ->.
  symmetry. apply dom_insert_lookup_L. eauto.
Qed.

Lemma storage_deallocate (b : block_id) : preserves storage_ok (deallocate b).
Proof.
  intros h a h'. unfold deallocate. destruct (blocks h !! b); [|discriminate].
  intros [= _ <-]. unfold storage_ok. cbn [allocated blocks]. intros ->.
  rewrite dom_delete_L. reflexivity.
Qed.

Lemma storage_get_object (p : pointer) : preserves storage_ok (get_object p).
Proof.
  intros h a h'. unfold get_object. destruct p as [|o|b]; [discriminate| |].
  - destruct (objects h !! o); [|discriminate]. intros [= _ <-] H. exact H.
  - destruct (blocks h !! b) as [[? ? [|[|]]]|]; try discriminate.
    intros [= _ <-] H. exact H.
Qed.

Lemma storage_free_object (a : object_id) : preserves storage_ok (free_object a).
Proof.
  intros h r h'. unfold free_object. destruct (objects h !! a); [|discriminate].
  intros [= _ <-] H. exact H.
Qed.

Lemma storage_new_object (o : Object) : preserves storage_ok (new_object o).
Proof. intros h r h' [= _ <-] H. exact H. Qed.

(** Allocation followed by the construction of the block. *)
Lemma storage_allocate_construct {A} (blk : block_id -> BaseControlBlock)
    (k : block_id -> M A) :
  (forall b, preserves storage_ok (k b)) ->
  preserves storage_ok (b <~ allocate ;; construct_block b (blk b) ;;; k b).
Proof.
  intros Hk h a h'. unfold bind, allocate, construct_block. intros Hr H.
  apply (Hk _ _ _ _ Hr). unfold storage_ok in *. cbn [allocated blocks].
  rewrite dom_insert_L, H. reflexivity.
Qed.

Ltac storage_step :=
  first
    [ apply preserves_ret
    | apply preserves_undefined
    | apply storage_log
    | apply storage_get_block
    | apply storage_put_block
    | apply storage_deallocate
    | apply storage_get_object
    | apply storage_free_object
    | apply storage_new_object
    | apply storage_allocate_construct; intros ?
    | apply preserves_bind; [|intros ?]
    | match goal with
      | |- preserves _ (match ?x with _ => _ end) => destruct x
      end ].

Ltac storage := repeat storage_step.

Lemma storage_WeakPtr_dtor (w : WeakPtr) : preserves storage_ok (WeakPtr_dtor w).
Proof. unfold WeakPtr_dtor. storage. Qed.

Lemma storage_WeakPtr_copy (w : WeakPtr) : preserves storage_ok (WeakPtr_copy w).
Proof. unfold WeakPtr_copy. storage. Qed.

Lemma storage_Object_dtor (o : Object) : preserves storage_ok (Object_dtor o).
Proof. unfold Object_dtor. destruct (enable_wp o); [apply storage_WeakPtr_dtor|storage]. Qed.

Lemma storage_call_deleter (d : Delete) (p : pointer) :
  preserves storage_ok (call_deleter d p).
Proof.
  unfold call_deleter. storage_step; [storage_step|].
  destruct d; [|storage]. destruct p; storage.
  apply storage_Object_dtor.
Qed.

Lemma storage_destroy (b : block_id) : preserves storage_ok (destroy b).
Proof.
  unfold destroy. storage_step; [storage_step|]. storage_step; [storage_step|].
  destruct (layout a) as [p d al|[o|] al].
  - storage_step; [apply storage_call_deleter|]. storage.
  - storage_step; [storage_step|]. storage_step; [apply storage_Object_dtor|].
    intros h r h'. destruct (blocks h !! b); [apply storage_put_block|].
    intros [= _ <-] H. exact H.
  - storage.
Qed.

Lemma storage_SharedPtr_dtor (x : SharedPtr) : preserves storage_ok (SharedPtr_dtor x).
Proof.
  unfold SharedPtr_dtor. destruct (sp_cb x) as [b|]; [|storage].
  storage_step; [storage_step|]. storage_step; [storage_step|].
  destruct (_ =? 0); [|storage]. destruct (_ =? 0).
  - storage_step; [apply storage_destroy|]. storage.
  - apply storage_destroy.
Qed.

Lemma storage_SharedPtr_copy (x : SharedPtr) : preserves storage_ok (SharedPtr_copy x).
Proof. unfold SharedPtr_copy. storage. Qed.

Lemma storage_SharedPtr_from_weak (w : WeakPtr) :
  preserves storage_ok (SharedPtr_from_weak w).
Proof. unfold SharedPtr_from_weak. storage. Qed.

Lemma storage_WeakPtr_from_shared (x : SharedPtr) :
  preserves storage_ok (WeakPtr_from_shared x).
Proof.
  unfold WeakPtr_from_shared.
  storage_step; [apply storage_SharedPtr_copy|].
  storage_step; [storage|]. storage_step; [apply storage_SharedPtr_dtor|]. storage.
Qed.

Lemma storage_WeakPtr_lock (w : WeakPtr) : preserves storage_ok (WeakPtr_lock w).
Proof.
  unfold WeakPtr_lock. storage_step.
  - unfold WeakPtr_expired. storage.
  - destruct a; [storage|apply storage_SharedPtr_from_weak].
Qed.

Lemma storage_SharedPtr_assign (same : bool) (x y : SharedPtr) :
  preserves storage_ok (SharedPtr_assign same x y).
Proof.
  unfold SharedPtr_assign, SharedPtr_swap. destruct same; [storage|].
  storage_step; [apply storage_SharedPtr_copy|].
  storage_step; [apply storage_SharedPtr_dtor|]. storage.
Qed.

Lemma storage_SharedPtr_move_assign (same : bool) (x y : SharedPtr) :
  preserves storage_ok (SharedPtr_move_assign same x y).
Proof.
  unfold SharedPtr_move_assign, SharedPtr_move, SharedPtr_swap.
  storage_step; [apply storage_SharedPtr_dtor|]. storage.
Qed.

Lemma storage_SharedPtr_reset (x : SharedPtr) : preserves storage_ok (SharedPtr_reset x).
Proof.
  unfold SharedPtr_reset, SharedPtr_swap.
  storage_step; [apply storage_SharedPtr_dtor|]. storage.
Qed.

Lemma storage_WeakPtr_assign (x y : WeakPtr) : preserves storage_ok (WeakPtr_assign x y).
Proof.
  unfold WeakPtr_assign, WeakPtr_swap.
  storage_step; [apply storage_WeakPtr_copy|].
  storage_step; [apply storage_WeakPtr_dtor|]. storage.
Qed.

Lemma storage_WeakPtr_move_assign (same : bool) (x y : WeakPtr) :
  preserves storage_ok (WeakPtr_move_assign same x y).
Proof.
  unfold WeakPtr_move_assign, WeakPtr_move, WeakPtr_swap.
  storage_step; [apply storage_WeakPtr_dtor|]. storage.
Qed.

Lemma storage_adopt (p : pointer) : preserves storage_ok (SharedPtr_adopt plain_class p).
Proof. unfold SharedPtr_adopt. cbn [derives_esft plain_class]. storage. Qed.

Lemma storage_adopt_deleter (p : pointer) (d : Delete) :
  preserves storage_ok (SharedPtr_adopt_deleter plain_class p d).
Proof. unfold SharedPtr_adopt_deleter. cbn [derives_esft plain_class]. storage. Qed.

Lemma storage_adopt_deleter_alloc (p : pointer) (d : Delete) (al : Alloc) :
  preserves storage_ok (SharedPtr_adopt_deleter_alloc plain_class p d al).
Proof. unfold SharedPtr_adopt_deleter_alloc. cbn [derives_esft plain_class]. storage. Qed.

Lemma storage_reset_ptr (x : SharedPtr) (p : pointer) :
  preserves storage_ok (SharedPtr_reset_ptr plain_class x p).
Proof.
  unfold SharedPtr_reset_ptr, SharedPtr_swap.
  storage_step; [apply storage_adopt|].
  storage_step; [apply storage_SharedPtr_dtor|]. storage.
Qed.

(** The factory, when the constructor of the payload returns. *)
Lemma storage_allocateShared (T : Class) (al : Alloc) (args : list Z) :
  ctor_succeeds T args = true ->
  preserves storage_ok (allocateShared T al args).
Proof.
  intros Hc h r h'. unfold allocateShared. rewrite Hc. run_monad.
  intros [= _ <-]. unfold storage_ok. cbn [allocated blocks]. intros ->.
  rewrite !dom_insert_L. set_solver.
Qed.

Lemma on_heap_storage {A} (m : M A) (s s' : Sys) (k : A -> Heap -> Sys) :
  preserves storage_ok m -> (forall a h, heap (k a h) = h) ->
  on_heap m s k = Some s' -> storage_ok (heap s) -> storage_ok (heap s').
Proof.
  intros Hm Hk. unfold on_heap. destruct (m (heap s)) as [[a h']|] eqn:E; [|discriminate].
  intros [= <-] H. rewrite Hk. exact (Hm _ _ _ E H).
Qed.

Lemma step_storage (op : Op) (s s' : Sys) :
  step op s = Some s' -> storage_ok (heap s) -> storage_ok (heap s').
Proof.
  destruct op; cbn [step];
    repeat match goal with
           | |- context [match ?l !! ?i with _ => _ end] => destruct (l !! i)
           end;
    try (intros [= <-]; exact id);
    try (unfold SharedPtr_move, SharedPtr_swap, WeakPtr_move, WeakPtr_swap;
         intros [= <-]; exact id).
  all: apply on_heap_storage;
    try (intros res hres; try destruct res; reflexivity).
  - storage_step; [storage_step|apply storage_adopt].
  - storage_step; [storage_step|apply storage_adopt_deleter].
  - storage_step; [storage_step|apply storage_adopt_deleter_alloc].
  - apply storage_allocateShared. reflexivity.
  - apply storage_SharedPtr_copy.
  - apply storage_SharedPtr_assign.
  - apply storage_SharedPtr_move_assign.
  - apply storage_SharedPtr_reset.
  - storage_step; [storage_step|apply storage_reset_ptr].
  - apply storage_SharedPtr_dtor.
  - apply storage_WeakPtr_from_shared.
  - apply storage_WeakPtr_copy.
  - apply storage_WeakPtr_assign.
  - apply storage_WeakPtr_move_assign.
  - apply storage_WeakPtr_dtor.
  - apply storage_WeakPtr_lock.
Qed.

Lemma run_storage (ops : list Op) (s s' : Sys) :
  run ops s = Some s' -> storage_ok (heap s) -> storage_ok (heap s').
Proof.
  revert s. induction ops as [|op ops IH]; intros s; cbn [run].
  - intros [= <-]. exact id.
  - destruct (step op s) as [s1|] eqn:E; [|discriminate].
    intros Hr H. exact (IH s1 Hr (step_storage op s s1 E H)).
Qed.

Lemma refs_all_empty {A} (cb : A -> option block_id) (b : block_id) (l : list A) :
  (forall x, x ∈ l -> cb x = None) -> refs cb b l = 0%nat.
Proof.
  induction l as [|x l IH]; intros H; [reflexivity|].
  rewrite refs_cons, IH.
  - rewrite (H x) by apply list_elem_of_here. reflexivity.
  - intros y Hy. apply H. apply list_elem_of_further, Hy.
Qed.

(** X20.  Programs are sequences of the handle statements of [Op]: the
    constructor of every payload returns, and no payload holds a handle.
    Along every such program that stays within the capacity of the counters,
    the block storage that has been allocated and not given back is exactly
    the storage of the blocks that some strong or weak handle references:
    nothing leaks, nothing is released early. Once every handle has been
    released or emptied, no storage is held. (When the constructor throws
    inside [allocateShared], the storage of the block does leak: that path
    is not a statement of these programs.) *)
Theorem storage_accounting (ops : list Op) :
  within_capacity ops init_sys ->
  exists s,
    run ops init_sys = Some s /\
    (forall b, b ∈ allocated (heap s) <->
               (strong_refs b (strongs s) + weak_refs b (weaks s) <> 0)%nat) /\
    ((forall x, x ∈ strongs s -> sp_cb x = None) ->
     (forall w, w ∈ weaks s -> wp_cb w = None) ->
     allocated (heap s) = ∅ /\ blocks (heap s) = ∅).
Proof.
  intros Hcap. destruct (reachable ops Hcap) as (s & Hr & HI & _).
  assert (Hst : storage_ok (heap s)).
  { apply (run_storage ops init_sys s Hr). unfold storage_ok. cbn.
    rewrite dom_empty_L. reflexivity. }
  assert (Hiff : forall b, is_Some (blocks (heap s) !! b) <->
                           (strong_refs b (strongs s) + weak_refs b (weaks s) <> 0)%nat).
  { intros b. split.
    - intros [blk E]. destruct (HInv_block _ _ _ _ _ HI E) as (_ & _ & H3 & _). exact H3.
    - apply (HInv_live _ _ _ b HI). }
  exists s. split; [exact Hr|]. split.
  - intros b. rewrite Hst, elem_of_dom. apply Hiff.
  - intros Hs Hw.
    assert (Hnone : forall b, blocks (heap s) !! b = None).
    { intros b. destruct (blocks (heap s) !! b) as [blk|] eqn:E; [|reflexivity].
      assert (Hb : is_Some (blocks (heap s) !! b)) by eauto.
      apply Hiff in Hb. unfold strong_refs, weak_refs in Hb.
      rewrite !refs_all_empty in Hb by assumption. lia. }
    assert (Hempty : blocks (heap s) = ∅) by (apply map_empty; exact Hnone).
    split; [|exact Hempty]. rewrite Hst, Hempty. apply dom_empty_L.
Qed.

(** ** How statements move the memory *)













(** ** The handles of a state *)










(** ** Statements that create no block *)





















(** ** Handles stay linked to their payloads *)























(** ** Every payload adopted with the default policy is deleted *)








(** ** Handles to one object share one block *)


(** ** The further properties at concrete inputs *)

Lemma demo_pair_within_capacity : within_capacity demo_pair init_sys.
Proof. apply short_within_capacity. reflexivity. Defined.

Lemma demo_strong_live (n : Z) :
  1 <= n <= UINT_MAX -> strong_live demo_strong (heap_with_count n).
Proof.
  intros Hn b [= <-]. eexists. split; [reflexivity|]. exact Hn.
Defined.

Lemma demo_weak_live (n : Z) : weak_live demo_weak (heap_with_count n).
Proof. intros b [= <-]. eexists. reflexivity. Defined.




Lemma storage_accounting_witness :
  within_capacity demo_program init_sys /\
  exists s, run demo_program init_sys = Some s /\ 1%positive ∈ allocated (heap s).
Proof.
  split; [exact demo_program_within_capacity|].
  destruct (storage_accounting demo_program demo_program_within_capacity)
    as (s & Hr & Hiff & _).
  exists s. split; [exact Hr|]. apply Hiff.
  vm_compute in Hr. injection Hr as <-. vm_compute. discriminate.
Defined.




Lemma SharedPtr_assign_same_block_witness :
  strong_live demo_strong (heap_with_count 2) /\
  sp_cb SharedPtr_default <> sp_cb demo_strong /\
  sp_cb (mkSharedPtr nullptr (Some 1%positive)) = sp_cb demo_strong /\
  SharedPtr_assign false (mkSharedPtr nullptr (Some 1%positive)) demo_strong
    (heap_with_count 2) = Some (demo_strong, heap_with_count 2).
Proof.
  assert (Hl : strong_live demo_strong (heap_with_count 2)).
  { apply demo_strong_live. rewrite UINT_MAX_value. lia. }
  split; [exact Hl|]. split; [discriminate|]. split; [reflexivity|].
  exact (proj2 (SharedPtr_assign_same_block (mkSharedPtr nullptr (Some 1%positive))
                  demo_strong (heap_with_count 2) Hl eq_refl)).
Defined.


Lemma swap_exchanges_witness :
  exists s s',
    run demo_pair init_sys = Some s /\
    step (OpSwap 0 1) s = Some s' /\
    strongs s' = rev (strongs s) /\
    step (OpSwap 0 1) s' = Some s.
Proof.
  destruct (reachable demo_pair demo_pair_within_capacity) as (s & Hr & _).
  pose proof Hr as Hs. vm_compute in Hs. injection Hs as Hs.
  destruct (proj1 (swap_exchanges s 0 1)
              (mkSharedPtr (object_at 1%positive) (Some 1%positive))
              (mkSharedPtr (object_at 2%positive) (Some 2%positive)))
    as (s' & Hstep & _ & _ & _ & _ & _ & _ & Hback).
  - rewrite <- Hs. reflexivity.
  - rewrite <- Hs. reflexivity.
  - exists s, s'. split; [exact Hr|]. split; [exact Hstep|]. split; [|exact Hback].
    revert Hstep. rewrite <- Hs. intros [= <-]. reflexivity.
Defined.

Lemma SharedPtr_convert_is_copy_witness :
  (forall b, sp_cb demo_strong = Some b ->
     exists blk, blocks (heap_with_count 1) !! b = Some blk /\
                 0 <= shared_count blk < UINT_MAX) /\
  exists h',
    SharedPtr_convert demo_strong (heap_with_count 1) = Some (demo_strong, h') /\
    SharedPtr_use_count demo_strong h' = Some (2, h').
Proof.
  assert (Hl : forall b, sp_cb demo_strong = Some b ->
            exists blk, blocks (heap_with_count 1) !! b = Some blk /\
                        0 <= shared_count blk < UINT_MAX).
  { intros b [= <-]. eexists. split; [reflexivity|]. cbn. rewrite UINT_MAX_value. lia. }
  split; [exact Hl|].
  destruct (SharedPtr_convert_is_copy demo_strong (heap_with_count 1) Hl)
    as (h' & H1 & _ & H3).
  exists h'. split; [exact H1|]. exact (H3 1%positive _ eq_refl eq_refl).
Defined.

Lemma WeakPtr_convert_is_copy_witness :
  (forall b, wp_cb demo_weak = Some b ->
     exists blk, blocks (heap_with_count 1) !! b = Some blk /\
                 0 <= weak_count blk < UINT_MAX) /\
  exists h',
    WeakPtr_convert demo_weak (heap_with_count 1) = Some (demo_weak, h') /\
    WeakPtr_copy demo_weak (heap_with_count 1) = Some (demo_weak, h').
Proof.
  assert (Hl : forall b, wp_cb demo_weak = Some b ->
            exists blk, blocks (heap_with_count 1) !! b = Some blk /\
                        0 <= weak_count blk < UINT_MAX).
  { intros b [= <-]. eexists. split; [reflexivity|]. cbn. rewrite UINT_MAX_value. lia. }
  split; [exact Hl|].
  destruct (WeakPtr_convert_is_copy demo_weak (heap_with_count 1) Hl)
    as (h' & H1 & H2 & _).
  exists h'. split; [exact H1|exact H2].
Defined.

Lemma WeakPtr_from_shared_is_copy_witness :
  (forall b, sp_cb demo_strong = Some b ->
     exists blk, blocks (heap_with_count 1) !! b = Some blk /\
                 1 <= shared_count blk <= UINT_MAX) /\
  exists h',
    WeakPtr_from_shared demo_strong (heap_with_count 1) = Some (demo_weak, h') /\
    SharedPtr_use_count demo_strong h' = Some (1, h').
Proof.
  assert (Hl : strong_live demo_strong (heap_with_count 1)).
  { apply demo_strong_live. rewrite UINT_MAX_value. lia. }
  split; [exact Hl|].
  destruct (WeakPtr_from_shared_is_copy demo_strong (heap_with_count 1) Hl)
    as (h' & H1 & _ & n & H3 & H4).
  exists h'. split; [exact H1|].
  vm_compute in H3. injection H3 as <-. exact H4.
Defined.

Lemma weak_lock_round_trip_witness :
  sp_cb demo_strong = Some 1%positive /\
  1 <= 1 < UINT_MAX /\
  exists w h1 h2,
    WeakPtr_from_shared demo_strong (heap_with_count 1) = Some (w, h1) /\
    WeakPtr_lock w h1 = Some (demo_strong, h2) /\
    SharedPtr_use_count demo_strong h2 = Some (2, h2).
Proof.
  split; [reflexivity|]. split; [rewrite UINT_MAX_value; lia|].
  destruct (weak_lock_round_trip demo_strong 1%positive
              (mkBlock 1 1 (RegularControlBlock (object_at 7%positive) default_delete
                              std_allocator))
              (heap_with_count 1) eq_refl eq_refl)
    as (w & h1 & h2 & H1 & _ & H3 & H4 & _).
  - cbn. rewrite UINT_MAX_value. lia.
  - exists w, h1, h2. auto.
Defined.

Lemma weak_ops_keep_strong_side_witness :
  weak_live WeakPtr_default (heap_with_count 0) /\
  weak_live demo_weak (heap_with_count 0) /\
  exists h',
    WeakPtr_dtor demo_weak (heap_with_count 0) = Some (tt, h') /\
    strong_side_kept (heap_with_count 0) h' /\
    blocks h' !! 1%positive = None.
Proof.
  assert (H0 : weak_live WeakPtr_default (heap_with_count 0)) by (intros b [=]).
  split; [exact H0|]. split; [apply demo_weak_live|].
  destruct (weak_ops_keep_strong_side WeakPtr_default demo_weak (heap_with_count 0) H0
              (demo_weak_live 0))
    as (_ & _ & (h' & Hd & Hk) & _).
  exists h'. split; [exact Hd|]. split; [exact Hk|].
  vm_compute in Hd. injection Hd as <-. reflexivity.
Defined.

Lemma expired_iff_use_count_zero_witness :
  weak_live demo_weak (heap_with_count 0) /\
  WeakPtr_expired demo_weak (heap_with_count 0) = Some (true, heap_with_count 0) /\
  WeakPtr_use_count demo_weak (heap_with_count 0) = Some (0, heap_with_count 0).
Proof.
  split; [apply demo_weak_live|].
  destruct (expired_iff_use_count_zero demo_weak (heap_with_count 0) (demo_weak_live 0))
    as (e & n & He & Hn & Hiff & _).
  assert (n = 0) as -> by (vm_compute in Hn; congruence).
  rewrite He, Hn. split; [|reflexivity].
  rewrite (proj2 Hiff eq_refl). reflexivity.
Defined.

Lemma allocateShared_release_witness :
  ctor_succeeds observing_class [1; 2] = true /\
  blocks empty_heap !! next_block empty_heap = None /\
  (next_block empty_heap ∉ allocated empty_heap) /\
  exists s h1 h2,
    allocateShared observing_class (custom_allocator 3) [1; 2] empty_heap =
      Some (Returned s, h1) /\
    SharedPtr_dtor s h1 = Some (tt, h2) /\
    blocks h2 = ∅ /\
    trace h2 = [EvAllocate 1%positive; EvConstruct 1%positive [1; 2];
                EvDestroy 1%positive; EvDestructor (storage_of 1%positive);
                EvDeallocate 1%positive (custom_allocator 3)].
Proof.
  assert (Hn : next_block empty_heap ∉ allocated empty_heap) by apply not_elem_of_empty.
  split; [reflexivity|]. split; [reflexivity|]. split; [exact Hn|].
  destruct (allocateShared_release observing_class (custom_allocator 3) [1; 2] empty_heap
              eq_refl eq_refl Hn)
    as (s & h1 & h2 & H1 & H2 & H3 & _ & _ & H6).
  exists s, h1, h2. auto.
Defined.

Lemma adopt_custom_deleter_release_witness :
  derives_esft plain_class = false /\
  blocks heap_with_plain_object !! next_block heap_with_plain_object = None /\
  (next_block heap_with_plain_object ∉ allocated heap_with_plain_object) /\
  exists s h1 h2,
    SharedPtr_adopt_deleter plain_class (object_at 7%positive) (custom_delete 4)
      heap_with_plain_object = Some (s, h1) /\
    SharedPtr_dtor s h1 = Some (tt, h2) /\
    objects h2 = objects heap_with_plain_object /\
    trace h2 = [EvAllocate 1%positive; EvDestroy 1%positive;
                EvDeleter (custom_delete 4) (object_at 7%positive);
                EvDeallocate 1%positive std_allocator].
Proof.
  assert (Hn : next_block heap_with_plain_object ∉ allocated heap_with_plain_object)
    by apply not_elem_of_empty.
  split; [reflexivity|]. split; [reflexivity|]. split; [exact Hn|].
  destruct (adopt_custom_deleter_release plain_class (object_at 7%positive) 4
              heap_with_plain_object eq_refl eq_refl Hn)
    as (s & h1 & h2 & H1 & _ & _ & H2 & _ & H4 & _ & H6).
  exists s, h1, h2. auto.
Defined.

Lemma adopt_deleter_alloc_release_witness :
  derives_esft plain_class = false /\
  blocks heap_with_plain_object !! next_block heap_with_plain_object = None /\
  (next_block heap_with_plain_object ∉ allocated heap_with_plain_object) /\
  exists s h1 h2,
    SharedPtr_adopt_deleter_alloc plain_class (object_at 7%positive) (custom_delete 4)
      (custom_allocator 3) heap_with_plain_object = Some (s, h1) /\
    SharedPtr_dtor s h1 = Some (tt, h2) /\
    trace h2 = [EvAllocate 1%positive; EvDestroy 1%positive;
                EvDeleter (custom_delete 4) nullptr;
                EvDeallocate 1%positive (custom_allocator 3)].
Proof.
  assert (Hn : next_block heap_with_plain_object ∉ allocated heap_with_plain_object)
    by apply not_elem_of_empty.
  split; [reflexivity|]. split; [reflexivity|]. split; [exact Hn|].
  destruct (adopt_deleter_alloc_release plain_class (object_at 7%positive)
              (custom_delete 4) (custom_allocator 3)
              heap_with_plain_object eq_refl eq_refl Hn)
    as (s & h1 & h2 & H1 & _ & _ & H2 & _ & _ & _ & H6).
  exists s, h1, h2. auto.
Defined.

Lemma count_wraps_at_capacity_witness :
  sp_cb demo_strong = Some 1%positive /\
  exists h1,
    SharedPtr_copy demo_strong (heap_with_count UINT_MAX) = Some (demo_strong, h1) /\
    SharedPtr_use_count demo_strong h1 = Some (0, h1) /\
    WeakPtr_expired demo_weak h1 = Some (true, h1).
Proof.
  split; [reflexivity|].
  destruct (count_wraps_at_capacity demo_strong 1%positive
              (mkBlock UINT_MAX 1 (RegularControlBlock (object_at 7%positive)
                                     default_delete std_allocator))
              (heap_with_count UINT_MAX) eq_refl eq_refl eq_refl)
    as (h1 & H1 & H2 & H3 & _).
  exists h1. split; [exact H1|]. split; [exact H2|].
  exact (proj1 (H3 demo_weak eq_refl)).
Defined.

Lemma double_adoption_double_delete_witness :
  derives_esft plain_class = false /\
  objects heap_with_plain_object !! 7%positive = Some (construct_object plain_class []) /\
  enable_wp (construct_object plain_class []) = None /\
  exists s1 h1 s2 h2 h3,
    SharedPtr_adopt plain_class (object_at 7%positive) heap_with_plain_object =
      Some (s1, h1) /\
    SharedPtr_adopt plain_class (object_at 7%positive) h1 = Some (s2, h2) /\
    SharedPtr_dtor s1 h2 = Some (tt, h3) /\
    SharedPtr_dtor s2 h3 = None.
Proof.
  split; [reflexivity|]. split; [reflexivity|]. split; [reflexivity|].
  destruct (double_adoption_double_delete plain_class 7%positive
              (construct_object plain_class []) heap_with_plain_object
              eq_refl eq_refl eq_refl)
    as (s1 & h1 & s2 & h2 & h3 & H1 & H2 & _ & _ & _ & _ & H3 & _ & _ & _ & H4).
  exists s1, h1, s2, h2, h3. auto.
Defined.


